(** * seller.py: reconciliation of supplier remnants with marketplace offers

    A shallow embedding of [seller.py] and the properties of its
    reconciler ([create_stocks], [create_prices], [price_conversion]), its
    batching helper ([divide]), its upload drivers and its paginated fetch
    ([get_offer_ids]).

    Python text is modelled as [string], the UTF-8 encoding of the text: the
    operations used by the program (equality, membership, splitting at ".",
    deleting what is not an ASCII digit) give the same answer on the encoding
    as on the code points, because every byte of a multi-byte character is
    at least 128. *)

From Stdlib Require Import ZArith Ascii String.
From stdpp Require Import base list strings gmap pretty.

Open Scope Z_scope.

(** ** Python values and exceptions *)

(** The cells that [pandas.read_excel] hands over and that the program
    inspects: text, whole numbers, and [None] for what [dict.get] returns on
    a missing key.  Floating-point cells are outside this model. *)
Inductive pyval :=
  | PNone
  | PStr (s : string)
  | PInt (z : Z).

Inductive exn :=
  | ValueError
  | TypeError
  | AttributeError
  | HTTPError
  | ReadTimeout
  | ConnectionError.

Global Instance pyval_eq_dec : EqDecision pyval.
Proof. solve_decision. Defined.

Global Instance exn_eq_dec : EqDecision exn.
Proof. solve_decision. Defined.

(** [str(v)] *)
Definition py_str (v : pyval) : string :=
  match v with
  | PNone => "None"
  | PStr s => s
  | PInt z => pretty z
  end.

(** A row of the spreadsheet, as [to_dict(orient="records")] gives it. *)
Abbreviation watch := (gmap string pyval).

(** [watch.get(key)] *)
Definition dict_get (w : watch) (key : string) : pyval :=
  default PNone (w !! key).

(** The entries of the two update lists. *)
Record stock_entry := StockEntry {
  stock_offer_id : string;
  stock : Z
}.

Record price_entry := PriceEntry {
  auto_action_enabled : string;
  currency_code : string;
  price_offer_id : string;
  old_price : string;
  price : string
}.

Global Instance stock_entry_eq_dec : EqDecision stock_entry.
Proof. solve_decision. Defined.

Global Instance price_entry_eq_dec : EqDecision price_entry.
Proof. solve_decision. Defined.

(** ** Text helpers *)

(** [s.split(sep)] for a separator of one character; the result is never
    empty. *)
Fixpoint py_split (sep : ascii) (s : string) : list string :=
  match s with
  | EmptyString => [EmptyString]
  | String c s' =>
      if decide (c = sep) then EmptyString :: py_split sep s'
      else match py_split sep s' with
           | [] => [String c EmptyString]
           | p :: ps => String c p :: ps
           end
  end.

Definition is_ascii_digit (c : ascii) : bool :=
  let n := N_of_ascii c in ((48 <=? n) && (n <=? 57))%N.

(** [re.sub("[^0-9]", "", s)] *)
Fixpoint re_sub_non_digits (s : string) : string :=
  match s with
  | EmptyString => EmptyString
  | String c s' =>
      if is_ascii_digit c then String c (re_sub_non_digits s')
      else re_sub_non_digits s'
  end.

(** [price_conversion(price)]: [price.split] exists on text only. *)
Definition price_conversion (price : pyval) : exn + string :=
  match price with
  | PStr s => inr (re_sub_non_digits (default EmptyString (head (py_split "." s))))
  | _ => inl AttributeError
  end.

(** ** The offer-id list as a mutable object *)

(** [create_stocks] and [create_prices] receive the caller's list object
    [offer_ids]; the list is the state, a raised exception keeps the state
    reached so far. *)
Definition M (A : Type) : Type := list string → (exn + A) * list string.

Definition ret {A} (a : A) : M A := λ ids, (inr a, ids).

Definition bind {A B} (m : M A) (k : A → M B) : M B := λ ids,
  match m ids with
  | (inr a, ids') => k a ids'
  | (inl e, ids') => (inl e, ids')
  end.

Definition lift {A} (r : exn + A) : M A := λ ids, (r, ids).

Declare Scope py_scope.
Delimit Scope py_scope with py.
Notation "'let*' x := m 'in' k" := (bind m (λ x, k))
  (at level 10, x name, m at level 100, k at level 200) : py_scope.

(** [x in offer_ids] *)
Definition contains (x : string) : M bool := λ ids, (inr (bool_decide (x ∈ ids)), ids).

(** [l.remove(x)] on a plain list: the first occurrence goes, and there is
    no result when [x] does not occur. *)
Fixpoint list_remove_first (x : string) (l : list string) : option (list string) :=
  match l with
  | [] => None
  | y :: l' =>
      if decide (x = y) then Some l'
      else cons y <$> list_remove_first x l'
  end.

(** [offer_ids.remove(x)] *)
Definition remove (x : string) : M unit := λ ids,
  match list_remove_first x ids with
  | Some ids' => (inr tt, ids')
  | None => (inl ValueError, ids)
  end.

(** The present content of [offer_ids], for [for offer_id in offer_ids]. *)
Definition read : M (list string) := λ ids, (inr ids, ids).

(** ** The reconciler *)

Section Reconciler.

(** [int(s)] on text is Python's own; it is taken as given: [None] stands
    for its [ValueError]. *)
Variable int_of_str : string → option Z.

(** [int(v)] *)
Definition py_int (v : pyval) : exn + Z :=
  match v with
  | PNone => inl TypeError
  | PStr s => match int_of_str s with Some z => inr z | None => inl ValueError end
  | PInt z => inr z
  end.

Local Open Scope py_scope.

(** The first loop of [create_stocks], from the list [stocks] built so far. *)
Fixpoint create_stocks_loop (watch_remnants : list watch) (stocks : list stock_entry)
    : M (list stock_entry) :=
  match watch_remnants with
  | [] => ret stocks
  | w :: rest =>
      let* found := contains (py_str (dict_get w "Код")) in
      if found then
        let count := py_str (dict_get w "Количество") in
        let* stock :=
          (if decide (count = ">10") then ret 100
           else if decide (count = "1") then ret 0
           else lift (py_int (dict_get w "Количество"))) in
        let stocks := stocks ++ [StockEntry (py_str (dict_get w "Код")) stock] in
        let* _ := remove (py_str (dict_get w "Код")) in
        create_stocks_loop rest stocks
      else create_stocks_loop rest stocks
  end.

(** [create_stocks(watch_remnants, offer_ids)] *)
Definition create_stocks (watch_remnants : list watch) : M (list stock_entry) :=
  let* stocks := create_stocks_loop watch_remnants [] in
  let* offer_ids := read in
  ret (foldl (λ stocks offer_id, stocks ++ [StockEntry offer_id 0]) stocks offer_ids).

(** The loop of [create_prices], from the list [prices] built so far. *)
Fixpoint create_prices_loop (watch_remnants : list watch) (prices : list price_entry)
    : M (list price_entry) :=
  match watch_remnants with
  | [] => ret prices
  | w :: rest =>
      let* found := contains (py_str (dict_get w "Код")) in
      if found then
        let* p := lift (price_conversion (dict_get w "Цена")) in
        let price := PriceEntry "UNKNOWN" "RUB" (py_str (dict_get w "Код")) "0" p in
        create_prices_loop rest (prices ++ [price])
      else create_prices_loop rest prices
  end.

(** [create_prices(watch_remnants, offer_ids)] *)
Definition create_prices (watch_remnants : list watch) : M (list price_entry) :=
  create_prices_loop watch_remnants [].

End Reconciler.

(** ** Batching *)

(** [range(start, stop, step)] *)
Definition py_range (start stop step : Z) : exn + list Z :=
  if decide (step = 0) then inl ValueError
  else
    let n :=
      if decide (0 < step)
      then (if decide (start < stop) then (stop - start - 1) / step + 1 else 0)
      else (if decide (stop < start) then (start - stop - 1) / (- step) + 1 else 0) in
    inr (map (λ k, start + Z.of_nat k * step) (seq 0 (Z.to_nat n))).

(** [lst[i:j]] *)
Definition py_slice {A} (lst : list A) (i j : Z) : list A :=
  let len := Z.of_nat (length lst) in
  let clamp x := if decide (x < 0) then Z.max 0 (x + len) else Z.min x len in
  take (Z.to_nat (clamp j - clamp i)) (drop (Z.to_nat (clamp i)) lst).

(** [list(divide(lst, n))]: the parts the generator yields, in order. *)
Definition divide {A} (lst : list A) (n : Z) : exn + list (list A) :=
  match py_range 0 (Z.of_nat (length lst)) n with
  | inr indices => inr (map (λ i, py_slice lst i (i + n)) indices)
  | inl e => inl e
  end.

(** ** The marketplace and the drivers *)

Record product := Product { offer_id : string }.

(** The [result] object of the product-list reply. *)
Record page := Page {
  items : list product;
  total : Z;
  page_last_id : string
}.

Inductive request :=
  | ProductList (cursor : string)
  | ImportPrices (prices : list price_entry)
  | ImportStocks (stocks : list stock_entry)
  | Ostatki.

Inductive event :=
  | Sent (r : request)
  | Printed (e : exn).

(** The outside world: what each endpoint answers to a request, given how
    many events came before it.  [inl] is a raised exception (a failed
    [raise_for_status], a timeout, a broken archive). *)
Record server := Server {
  product_list : nat → string → exn + page;
  import_prices : nat → list price_entry → exn + unit;
  import_stocks : nat → list stock_entry → exn + unit;
  ostatki : nat → exn + list watch
}.

(** How a run of a driver stands: finished, stopped by an exception, or
    still inside the fetch loop when the step budget ran out. *)
Inductive outcome (A : Type) :=
  | Done (a : A)
  | Raised (e : exn)
  | Running.
Arguments Done {A} a.
Arguments Raised {A} e.
Arguments Running {A}.

(** A driver acts on the log of events. *)
Definition IO (A : Type) : Type := list event → outcome A * list event.

Definition io_ret {A} (a : A) : IO A := λ log, (Done a, log).

Definition io_bind {A B} (m : IO A) (k : A → IO B) : IO B := λ log,
  match m log with
  | (Done a, log') => k a log'
  | (Raised e, log') => (Raised e, log')
  | (Running, log') => (Running, log')
  end.

Notation "'let+' x := m 'in' k" := (io_bind m (λ x, k))
  (at level 10, x name, m at level 100, k at level 200) : py_scope.

Definition io_lift {A} (r : exn + A) : IO A := λ log,
  match r with
  | inr a => (Done a, log)
  | inl e => (Raised e, log)
  end.

(** A request goes into the log, then the answer (or the exception) comes
    back. *)
Definition send {A} (r : request) (answer : nat → exn + A) : IO A := λ log,
  match answer (length log) with
  | inr a => (Done a, log ++ [Sent r])
  | inl e => (Raised e, log ++ [Sent r])
  end.

(** Calling a reconciler on the list object [offer_ids]: the value it
    returns, and the list as the call left it. *)
Definition call {A} (m : M A) (offer_ids : list string) : IO (A * list string) :=
  match m offer_ids with
  | (inr a, offer_ids') => io_ret (a, offer_ids')
  | (inl e, _) => io_lift (inl e)
  end.

(** [for x in xs: body(x)] *)
Fixpoint for_each {A} (xs : list A) (body : A → IO unit) : IO unit :=
  match xs with
  | [] => io_ret tt
  | x :: xs' => io_bind (body x) (λ _, for_each xs' body)
  end.

(** [try: ... except ...: print(...)] as in [main]: every exception ends in
    a printed message. *)
Definition try_print (m : IO unit) : IO unit := λ log,
  match m log with
  | (Raised e, log') => (Done tt, log' ++ [Printed e])
  | r => r
  end.

Section Drivers.

Variable int_of_str : string → option Z.
Variable srv : server.

Local Open Scope py_scope.

(** The two credentials are the same in every request of a run and are
    left out of the requests. *)

(** [get_product_list(last_id, client_id, seller_token)] *)
Definition get_product_list (last_id : string) : IO page :=
  send (ProductList last_id) (λ k, product_list srv k last_id).

(** [update_price(prices, client_id, seller_token)]; the reply is not used. *)
Definition update_price (prices : list price_entry) : IO unit :=
  send (ImportPrices prices) (λ k, import_prices srv k prices).

(** [update_stocks(stocks, client_id, seller_token)]; the reply is not used. *)
Definition update_stocks (stocks : list stock_entry) : IO unit :=
  send (ImportStocks stocks) (λ k, import_stocks srv k stocks).

(** [download_stock()]: the download, the unpacking and the reading of the
    spreadsheet are one request to the outside. *)
Definition download_stock : IO (list watch) :=
  send Ostatki (ostatki srv).

(** The [while True] loop of [get_offer_ids], with a budget of
    iterations. *)
Fixpoint get_offer_ids_loop (fuel : nat) (last_id : string) (product_list : list product)
    : IO (list product) :=
  match fuel with
  | O => λ log, (Running, log)
  | S fuel' =>
      let+ some_prod := get_product_list last_id in
      let product_list := product_list ++ items some_prod in
      let total := total some_prod in
      let last_id := page_last_id some_prod in
      if decide (total = Z.of_nat (length product_list)) then io_ret product_list
      else get_offer_ids_loop fuel' last_id product_list
  end.

(** [get_offer_ids(client_id, seller_token)] *)
Definition get_offer_ids (fuel : nat) : IO (list string) :=
  let+ product_list := get_offer_ids_loop fuel "" [] in
  io_ret (foldl (λ offer_ids product, offer_ids ++ [offer_id product]) [] product_list).

(** [upload_prices(watch_remnants, client_id, seller_token)] *)
Definition upload_prices (fuel : nat) (watch_remnants : list watch) : IO (list price_entry) :=
  let+ offer_ids := get_offer_ids fuel in
  let+ r := call (create_prices watch_remnants) offer_ids in
  let prices := r.1 in
  let+ parts := io_lift (divide prices 1000) in
  let+ _ := for_each parts update_price in
  io_ret prices.

(** [upload_stocks(watch_remnants, client_id, seller_token)] *)
Definition upload_stocks (fuel : nat) (watch_remnants : list watch)
    : IO (list stock_entry * list stock_entry) :=
  let+ offer_ids := get_offer_ids fuel in
  let+ r := call (create_stocks int_of_str watch_remnants) offer_ids in
  let stocks := r.1 in
  let+ parts := io_lift (divide stocks 100) in
  let+ _ := for_each parts update_stocks in
  let not_empty := filter (λ e, stock e ≠ 0) stocks in
  io_ret (not_empty, stocks).

(** [main()], from the [try] on: [offer_ids] names one list object, which
    both reconcilers receive. *)
Definition main (fuel : nat) : IO unit :=
  try_print (
    let+ offer_ids := get_offer_ids fuel in
    let+ watch_remnants := download_stock in
    let+ r := call (create_stocks int_of_str watch_remnants) offer_ids in
    let stocks := r.1 in
    let offer_ids := r.2 in
    let+ parts := io_lift (divide stocks 100) in
    let+ _ := for_each parts update_stocks in
    let+ r := call (create_prices watch_remnants) offer_ids in
    let prices := r.1 in
    let+ parts := io_lift (divide prices 900) in
    let+ _ := for_each parts update_price in
    io_ret tt).

End Drivers.

(** ** Sample inputs *)

(** A sample of Python's [int] on text, for running examples: a non-empty
    run of ASCII digits is read in base 10. *)
Fixpoint digits_value (acc : Z) (s : string) : option Z :=
  match s with
  | EmptyString => Some acc
  | String c s' =>
      if is_ascii_digit c
      then digits_value (10 * acc + (Z.of_N (N_of_ascii c) - 48)) s'
      else None
  end.

Definition int_of_digits (s : string) : option Z :=
  match s with
  | EmptyString => None
  | _ => digits_value 0 s
  end.

Definition mk_watch (code count cost : pyval) : watch :=
  {[ "Код" := code; "Количество" := count; "Цена" := cost ]}.

Definition watch_A : watch := mk_watch (PStr "A") (PStr ">10") (PStr "5'990.00 руб.").

Definition watch_B : watch := mk_watch (PStr "B") (PStr "1") (PStr "789 руб").

(** A second row with the code of [watch_A]. *)
Definition watch_A2 : watch := mk_watch (PStr "A") (PInt 7) (PStr "120.50").

(** A row with a numeric code and a quantity in text. *)
Definition watch_12 : watch := mk_watch (PInt 12) (PStr "25") (PStr "1'000.00 руб.").

(** A row of an article that the marketplace does not know; neither its
    quantity nor its price can be read. *)
Definition watch_X : watch := mk_watch (PStr "X") (PStr "abc") PNone.

(** A row whose quantity is not a number. *)
Definition watch_bad : watch := mk_watch (PStr "B") (PStr "abc") (PStr "1.00").

(** Two replies of the product list: three products in all. *)
Definition sample_pages (k : nat) : page :=
  match k with
  | O => Page [Product "A"; Product "B"] 3 "cursor-1"
  | _ => Page [Product "C"] 3 ""
  end.

(** A marketplace that accepts every request. *)
Definition sample_server : server :=
  Server (λ k _, inr (sample_pages k)) (λ _ _, inr tt) (λ _ _, inr tt)
         (λ _, inr [watch_A; watch_B]).

(** Replies that report three products and deliver two: the second
    product list and all after it are empty. *)
Definition short_pages (k : nat) : page :=
  match k with
  | O => Page [Product "A"; Product "B"] 3 "cursor-1"
  | _ => Page [] 3 "cursor-1"
  end.

(** A marketplace that goes on with such replies. *)
Definition short_server : server :=
  Server (λ k _, inr (short_pages k)) (λ _ _, inr tt) (λ _ _, inr tt)
         (λ _, inr [watch_A; watch_B]).

(** A marketplace that answers the first request and fails every request
    after it. *)
Definition failing_server : server :=
  Server (λ k _, match k with O => inr (sample_pages 0) | _ => inl HTTPError end)
         (λ _ _, inl HTTPError) (λ _ _, inl HTTPError) (λ _, inl HTTPError).

(** A marketplace that lists the product A twice, in one reply. *)
Definition repeating_server : server :=
  Server (λ _ _, inr (Page [Product "A"; Product "A"; Product "B"] 3 ""))
         (λ _ _, inr tt) (λ _ _, inr tt) (λ _, inr [watch_A; watch_B]).


(** A marketplace as [sample_server] that refuses the import of stocks. *)
Definition refusing_server : server :=
  Server (λ k _, inr (sample_pages k)) (λ _ _, inr tt) (λ _ _, inl HTTPError)
         (λ _, inr [watch_A; watch_B]).

(** A marketplace with 150 products in one reply, which accepts the
    first import of stocks (the second request of [upload_stocks]) and
    refuses every other one. *)
Definition big_server : server :=
  Server (λ _ _, inr (Page (replicate 150 (Product "Z")) 150 ""))
         (λ _ _, inr tt)
         (λ k _, if decide (k = 1%nat) then inr tt else inl HTTPError)
         (λ _, inr []).

(** * Notions for the statements *)

Abbreviation code w := (py_str (dict_get w "Код")).

Abbreviation count w := (py_str (dict_get w "Количество")).

(** What is left of the id list once records with the given codes went
    through the first loop of [create_stocks]. *)
Fixpoint remaining (codes ids : list string) : list string :=
  match codes with
  | [] => ids
  | c :: cs =>
      match list_remove_first c ids with
      | Some ids' => remaining cs ids'
      | None => remaining cs ids
      end
  end.

(** Putting a computed prefix in front of the list a loop returns. *)
Definition extend {A} (acc : list A) (r : (exn + list A) * list string)
    : (exn + list A) * list string :=
  match r with
  | (inr es, ids) => (inr (acc ++ es), ids)
  | (inl e, ids) => (inl e, ids)
  end.

(** How often [c] occurs in [l]. *)
Definition occurrences (c : string) (l : list string) : nat :=
  length (filter (λ z, z = c) l).

(** The rows that find their code in the id list when the first loop of
    [create_stocks] reaches them: a row does when the list, as the caller
    gave it, holds the row's code more often than the rows [before] it
    carry it. *)
Fixpoint matched_rows (before : list string) (ws : list watch) (ids : list string)
    : list watch :=
  match ws with
  | [] => []
  | w :: rest =>
      if decide (occurrences (code w) before < occurrences (code w) ids)%nat
      then w :: matched_rows (before ++ [code w]) rest ids
      else matched_rows (before ++ [code w]) rest ids
  end.

(** The stock entry that [create_stocks] builds for a matched row. *)
Definition stock_entry_of (int_of_str : string → option Z)
    (w : watch) (e : stock_entry) : Prop :=
  ∃ v, e = StockEntry (code w) v ∧
       ((count w = ">10" ∧ v = 100) ∨
        (count w = "1" ∧ v = 0) ∨
        (count w ≠ ">10" ∧ count w ≠ "1" ∧
         py_int int_of_str (dict_get w "Количество") = inr v)).

(** The stock value that the body of the first loop computes for a row. *)
Definition stock_value (int_of_str : string → option Z) (w : watch) : exn + Z :=
  let count := py_str (dict_get w "Количество") in
  if decide (count = ">10") then inr 100
  else if decide (count = "1") then inr 0
  else py_int int_of_str (dict_get w "Количество").

(** [create_stocks] and then [create_prices] on the same list object, as
    [main] calls them. *)
Definition reconcile (int_of_str : string → option Z) (watch_remnants : list watch)
    : M (list stock_entry * list price_entry) :=
  (let* stocks := create_stocks int_of_str watch_remnants in
   let* prices := create_prices watch_remnants in
   ret (stocks, prices))%py.

(** Two runs of [reconcile], one after the other, on the same two
    objects. *)
Definition reconcile_twice (int_of_str : string → option Z) (watch_remnants : list watch)
    : M ((list stock_entry * list price_entry) * (list stock_entry * list price_entry)) :=
  (let* first := reconcile int_of_str watch_remnants in
   let* second := reconcile int_of_str watch_remnants in
   ret (first, second))%py.

(** The parts by position: part [k] starts at index [k * n]. *)
Definition parts_of {A} (lst : list A) (n c : nat) : list (list A) :=
  map (λ k, take n (drop (k * n) lst)) (seq 0 c).

(** The number of parts for a list of [len] elements. *)
Definition part_count (len n : Z) : nat :=
  Z.to_nat (if decide (0 < len) then (len - 1) / n + 1 else 0).

(** The batch limits of the two import endpoints. *)
Definition within_limits (ev : event) : Prop :=
  match ev with
  | Sent (ImportStocks stocks) => (length stocks ≤ 100)%nat
  | Sent (ImportPrices prices) => (length prices ≤ 1000)%nat
  | _ => True
  end.

(** [m] keeps every logged request within the limits, and a value it
    returns satisfies [Q]. *)
Definition safe {A} (m : IO A) (Q : A → Prop) : Prop :=
  ∀ log, Forall within_limits log →
    Forall within_limits (m log).2 ∧ (∀ a, (m log).1 = Done a → Q a).

Section FetchNotions.

(** [pages k] is the reply to request number [k] of the run. *)
Variable pages : nat → page.

(** The cursor sent with request [k]: empty at first, then the one the
    previous reply returned. *)
Definition cursor (k : nat) : string :=
  match k with
  | O => ""
  | S j => page_last_id (pages j)
  end.

(** The products of the first [k] replies. *)
Definition fetched (k : nat) : list product :=
  concat (map (λ i, items (pages i)) (seq 0 k)).

(** The log after [k] requests. *)
Definition requests (k : nat) : list event :=
  map (λ i, Sent (ProductList (cursor i))) (seq 0 k).

(** Reply [k] reports a total equal to the number of products fetched up
    to and including it. *)
Definition complete (k : nat) : Prop :=
  total (pages k) = Z.of_nat (length (fetched (S k))).

Global Instance complete_dec k : Decision (complete k).
Proof. unfold complete. apply _. Defined.

End FetchNotions.

(** * Lemmas *)

(** ** Facts about lists *)

(** Appending one element per step is a [map] put behind the start list. *)
Lemma foldl_snoc_map {A B} (f : A → B) (l : list A) (acc : list B) :
  foldl (λ acc x, acc ++ [f x]) acc l = acc ++ map f l.
Proof.
  revert acc. induction l as [|x l IH]; intros acc; simpl.
  - by rewrite app_nil_r.
  - by rewrite IH, <- app_assoc.
Qed.

Lemma list_remove_first_elem x l :
  x ∈ l ↔ is_Some (list_remove_first x l).
Proof.
  induction l as [|y l IH]; simpl.
  - split; [intros H; inversion H | intros [? ?]; discriminate].
  - destruct (decide (x = y)) as [->|Hne].
    + split; [eauto | intros _; left].
    + rewrite elem_of_cons, IH. split.
      * intros [?|[l' Hl']]; [done|]. rewrite Hl'. eauto.
      * intros [l' Hl']. right.
        destruct (list_remove_first x l); [eauto | discriminate].
Qed.

Lemma list_remove_first_split x l l' :
  list_remove_first x l = Some l' →
  ∃ l1 l2, l = l1 ++ x :: l2 ∧ l' = l1 ++ l2 ∧ x ∉ l1.
Proof.
  revert l'. induction l as [|y l IH]; intros l'; simpl; [discriminate|].
  destruct (decide (x = y)) as [->|Hne].
  - intros [= <-]. exists [], l. split_and!; [done..|]. apply not_elem_of_nil.
  - destruct (list_remove_first x l) as [l0|] eqn:E; [|discriminate].
    intros [= <-]. destruct (IH l0 eq_refl) as (l1 & l2 & -> & -> & Hn).
    exists (y :: l1), l2. split_and!; [done..|].
    rewrite not_elem_of_cons. done.
Qed.

Lemma list_remove_first_sublist x l l' :
  list_remove_first x l = Some l' → sublist l' l.
Proof.
  intros (l1 & l2 & -> & -> & _)%list_remove_first_split.
  apply sublist_app; [done|]. by apply sublist_cons.
Qed.

Lemma list_remove_first_filter_ne x y l l' :
  list_remove_first x l = Some l' → x ≠ y →
  filter (λ z, z = y) l' = filter (λ z, z = y) l.
Proof.
  intros (l1 & l2 & -> & -> & _)%list_remove_first_split Hne.
  rewrite !filter_app, filter_cons_False by done. done.
Qed.

Lemma list_remove_first_NoDup x l l' :
  list_remove_first x l = Some l' → NoDup l → NoDup l' ∧ x ∉ l'.
Proof.
  intros (l1 & l2 & -> & -> & Hn)%list_remove_first_split Hnd.
  apply NoDup_app in Hnd as (H1 & H12 & H2).
  apply NoDup_cons in H2 as [Hx H2]. split.
  - apply NoDup_app. split_and!; [done| |done].
    intros z Hz Hz'. apply (H12 z Hz). by right.
  - rewrite elem_of_app. intros [?|?]; done.
Qed.

Lemma filter_none {A} (P : A → Prop) `{∀ x, Decision (P x)} (l : list A) :
  Forall (λ x, ¬ P x) l → filter P l = [].
Proof.
  induction 1 as [|x l Hx _ IH]; [done|].
  by rewrite filter_cons_False.
Qed.

Lemma filter_eq_NoDup (x : string) (l : list string) :
  NoDup l → x ∈ l → filter (λ z, z = x) l = [x].
Proof.
  induction 1 as [|y l Hy Hnd IH]; intros Hin.
  - by apply elem_of_nil in Hin.
  - destruct (decide (y = x)) as [->|Hne].
    + rewrite filter_cons_True by done. f_equal.
      apply filter_none, Forall_forall. by intros z Hz ->.
    + rewrite filter_cons_False by done. apply IH.
      apply elem_of_cons in Hin as [->|?]; done.
Qed.

(** ** The two loops, record by record *)

Lemma extend_nil {A} (r : (exn + list A) * list string) : extend [] r = r.
Proof. by destruct r as [[?|?] ?]. Qed.

Lemma extend_extend {A} (a b : list A) r : extend a (extend b r) = extend (a ++ b) r.
Proof. destruct r as [[?|?] ?]; simpl; [done|]. by rewrite app_assoc. Qed.

Lemma occurrences_zero c l : occurrences c l = 0%nat ↔ c ∉ l.
Proof.
  unfold occurrences. induction l as [|y l IH].
  - split; [intros _; apply not_elem_of_nil|done].
  - rewrite not_elem_of_cons, <- IH. destruct (decide (y = c)) as [->|Hne].
    + rewrite filter_cons_True by done. simpl. split; [lia|]. by intros [? _].
    + rewrite filter_cons_False by done. split; [by intros ?|by intros [_ ?]].
Qed.

Lemma occurrences_cons c y l :
  occurrences c (y :: l) = ((if decide (y = c) then 1 else 0) + occurrences c l)%nat.
Proof.
  unfold occurrences. case_decide.
  - by rewrite filter_cons_True.
  - by rewrite filter_cons_False.
Qed.

Lemma list_remove_first_occurrences x c l l' :
  list_remove_first x l = Some l' →
  occurrences c l = ((if decide (x = c) then 1 else 0) + occurrences c l')%nat.
Proof.
  intros (l1 & l2 & -> & -> & _)%list_remove_first_split.
  unfold occurrences. rewrite !filter_app, !length_app. case_decide.
  - rewrite filter_cons_True by done. simpl. lia.
  - by rewrite filter_cons_False.
Qed.

Lemma remaining_occurrences c codes ids :
  occurrences c (remaining codes ids) = (occurrences c ids - occurrences c codes)%nat.
Proof.
  revert ids. induction codes as [|c0 cs IH]; intros ids; simpl.
  - unfold occurrences at 3. simpl. lia.
  - rewrite occurrences_cons.
    destruct (list_remove_first c0 ids) as [ids'|] eqn:E.
    + rewrite IH, (list_remove_first_occurrences _ c _ _ E). case_decide; lia.
    + rewrite IH. case_decide as Hc; [|lia]. subst c0.
      assert (occurrences c ids = 0%nat) as ->; [|lia].
      apply occurrences_zero. rewrite list_remove_first_elem, E. by intros [? ?].
Qed.

Lemma remaining_sublist codes ids : sublist (remaining codes ids) ids.
Proof.
  revert ids. induction codes as [|c cs IH]; intros ids; simpl; [done|].
  destruct (list_remove_first c ids) as [ids'|] eqn:E; [|apply IH].
  etrans; [apply IH|]. by eapply list_remove_first_sublist.
Qed.

Lemma remaining_filter_other codes ids id :
  id ∉ codes →
  filter (λ z, z = id) (remaining codes ids) = filter (λ z, z = id) ids.
Proof.
  revert ids. induction codes as [|c cs IH]; intros ids Hn; simpl; [done|].
  apply not_elem_of_cons in Hn as [Hne Hn].
  destruct (list_remove_first c ids) as [ids'|] eqn:E; [|by apply IH].
  rewrite IH by done. by eapply list_remove_first_filter_ne.
Qed.

Lemma remaining_NoDup_consumed codes ids c :
  NoDup ids → c ∈ codes → c ∉ remaining codes ids.
Proof.
  revert ids. induction codes as [|c0 cs IH]; intros ids Hnd Hc; simpl.
  { by apply elem_of_nil in Hc. }
  destruct (list_remove_first c0 ids) as [ids'|] eqn:E.
  - destruct (list_remove_first_NoDup _ _ _ E Hnd) as [Hnd' Hn'].
    apply elem_of_cons in Hc as [->|Hc]; [|by apply IH].
    intros Hin. apply Hn'. eapply elem_of_sublist; [done|apply remaining_sublist].
  - apply elem_of_cons in Hc as [->|Hc]; [|by apply IH].
    intros Hin. assert (c0 ∈ ids) as Hin'.
    { eapply elem_of_sublist; [done|apply remaining_sublist]. }
    apply list_remove_first_elem in Hin' as [? ?]. congruence.
Qed.

Section ReconcilerFacts.

Variable int_of_str : string → option Z.

Lemma create_stocks_loop_cons w rest stocks ids :
  create_stocks_loop int_of_str (w :: rest) stocks ids =
    match list_remove_first (code w) ids with
    | Some ids' =>
        match stock_value int_of_str w with
        | inr v =>
            create_stocks_loop int_of_str rest (stocks ++ [StockEntry (code w) v]) ids'
        | inl e => (inl e, ids)
        end
    | None => create_stocks_loop int_of_str rest stocks ids
    end.
Proof.
  simpl. unfold bind at 1, contains.
  destruct (list_remove_first (code w) ids) as [ids'|] eqn:E.
  - rewrite bool_decide_eq_true_2
      by (apply list_remove_first_elem; rewrite E; eauto).
    unfold stock_value, bind, lift, ret, remove.
    repeat case_decide; rewrite ?E; try done.
  - rewrite bool_decide_eq_false_2; [done|].
    rewrite list_remove_first_elem, E. by intros [? ?].
Qed.

Lemma create_stocks_loop_acc ws stocks ids :
  create_stocks_loop int_of_str ws stocks ids =
  extend stocks (create_stocks_loop int_of_str ws [] ids).
Proof.
  revert stocks ids. induction ws as [|w ws IH]; intros stocks ids.
  - simpl. unfold ret. simpl. by rewrite app_nil_r.
  - rewrite !create_stocks_loop_cons.
    destruct (list_remove_first _ ids) as [ids'|]; [|apply IH].
    destruct (stock_value int_of_str w) as [e|v]; [done|].
    rewrite (IH (stocks ++ _)), (IH ([] ++ _)), extend_extend. done.
Qed.

Lemma create_stocks_loop_app ws1 ws2 ids :
  create_stocks_loop int_of_str (ws1 ++ ws2) [] ids =
  match create_stocks_loop int_of_str ws1 [] ids with
  | (inr es, ids1) => extend es (create_stocks_loop int_of_str ws2 [] ids1)
  | (inl e, ids1) => (inl e, ids1)
  end.
Proof.
  revert ids. induction ws1 as [|w ws1 IH]; intros ids.
  - simpl. by rewrite extend_nil.
  - rewrite <- app_comm_cons, !create_stocks_loop_cons.
    destruct (list_remove_first _ ids) as [ids'|]; [|apply IH].
    destruct (stock_value int_of_str w) as [e|v]; [done|].
    rewrite (create_stocks_loop_acc (ws1 ++ ws2)), (create_stocks_loop_acc ws1), IH.
    destruct (create_stocks_loop int_of_str ws1 [] ids') as [[e|es] ids1]; simpl; [done|].
    by rewrite extend_extend.
Qed.

(** The state the first loop leaves when it runs to its end. *)
Lemma create_stocks_loop_state ws stocks ids out ids' :
  create_stocks_loop int_of_str ws stocks ids = (inr out, ids') →
  ids' = remaining (map (λ w, code w) ws) ids.
Proof.
  revert stocks ids. induction ws as [|w ws IH]; intros stocks ids.
  - simpl. unfold ret. by intros [= _ <-].
  - rewrite create_stocks_loop_cons. simpl.
    destruct (list_remove_first _ ids) as [ids1|]; [|apply IH].
    destruct (stock_value int_of_str w) as [e|v]; [done|]. apply IH.
Qed.

(** [create_stocks] in one equation: the first loop, then one zero entry
    for each id still in the list. *)
Lemma create_stocks_eq ws ids :
  create_stocks int_of_str ws ids =
  match create_stocks_loop int_of_str ws [] ids with
  | (inr es, ids') => (inr (es ++ map (λ id, StockEntry id 0) ids'), ids')
  | (inl e, ids') => (inl e, ids')
  end.
Proof.
  unfold create_stocks, bind, read, ret.
  destruct (create_stocks_loop int_of_str ws [] ids) as [[e|es] ids']; [done|].
  by rewrite foldl_snoc_map.
Qed.

(** Whatever the outcome, the first loop only takes ids away. *)
Lemma create_stocks_loop_shrinks ws stocks ids :
  sublist (create_stocks_loop int_of_str ws stocks ids).2 ids.
Proof.
  revert stocks ids. induction ws as [|w ws IH]; intros stocks ids.
  - done.
  - rewrite create_stocks_loop_cons.
    destruct (list_remove_first _ ids) as [ids1|] eqn:E; [|apply IH].
    destruct (stock_value int_of_str w) as [e|v]; [done|].
    etrans; [apply IH|]. by eapply list_remove_first_sublist.
Qed.

(** The entries of the first loop carry codes of rows, in row order, and
    each code was in the list. *)
Lemma create_stocks_loop_codes ws ids es ids' :
  create_stocks_loop int_of_str ws [] ids = (inr es, ids') →
  sublist (map stock_offer_id es) (map (λ w, code w) ws) ∧
  Forall (λ e, stock_offer_id e ∈ ids) es.
Proof.
  revert ids es. induction ws as [|w ws IH]; intros ids es.
  - simpl. unfold ret. intros [= <- _]. split; [done|constructor].
  - rewrite create_stocks_loop_cons.
    destruct (list_remove_first _ ids) as [ids1|] eqn:E.
    + destruct (stock_value int_of_str w) as [e|v]; [done|].
      rewrite create_stocks_loop_acc.
      destruct (create_stocks_loop int_of_str ws [] ids1) as [[e|es1] ids2] eqn:E1;
        simpl; [done|].
      intros [= <- <-]. destruct (IH _ _ E1) as [Hs Hf]. split.
      * simpl. by apply sublist_skip.
      * constructor; simpl.
        { apply list_remove_first_elem. rewrite E. eauto. }
        eapply Forall_impl; [exact Hf|]. simpl. intros e He.
        eapply elem_of_sublist; [done|by eapply list_remove_first_sublist].
    + intros H. destruct (IH _ _ H) as [Hs Hf]. split; [|done].
      simpl. by apply sublist_cons.
Qed.

(** A row whose code is not in the list is passed over. *)
Lemma create_stocks_loop_skip w ws stocks ids :
  code w ∉ ids →
  create_stocks_loop int_of_str (w :: ws) stocks ids =
  create_stocks_loop int_of_str ws stocks ids.
Proof.
  intros Hn. rewrite create_stocks_loop_cons.
  destruct (list_remove_first _ ids) as [ids1|] eqn:E; [|done].
  exfalso. apply Hn, list_remove_first_elem. rewrite E. eauto.
Qed.

Lemma create_prices_loop_cons w rest prices ids :
  create_prices_loop (w :: rest) prices ids =
    if bool_decide (code w ∈ ids) then
      match price_conversion (dict_get w "Цена") with
      | inr p =>
          create_prices_loop rest
            (prices ++ [PriceEntry "UNKNOWN" "RUB" (code w) "0" p]) ids
      | inl e => (inl e, ids)
      end
    else create_prices_loop rest prices ids.
Proof.
  simpl. unfold bind at 1, contains. case_bool_decide; [|done].
  unfold bind, lift. by destruct (price_conversion _).
Qed.

Lemma create_prices_loop_acc ws prices ids :
  create_prices_loop ws prices ids = extend prices (create_prices_loop ws [] ids).
Proof.
  revert prices. induction ws as [|w ws IH]; intros prices.
  - simpl. unfold ret. simpl. by rewrite app_nil_r.
  - rewrite !create_prices_loop_cons. case_bool_decide; [|apply IH].
    destruct (price_conversion _) as [e|p]; [done|].
    rewrite (IH (prices ++ _)), (IH ([] ++ _)), extend_extend. done.
Qed.

(** [create_prices] only reads the id list. *)
Lemma create_prices_loop_state ws prices ids :
  (create_prices_loop ws prices ids).2 = ids.
Proof.
  revert prices. induction ws as [|w ws IH]; intros prices; [done|].
  rewrite create_prices_loop_cons. case_bool_decide; [|apply IH].
  destruct (price_conversion _); [done|apply IH].
Qed.

Lemma create_prices_loop_app ws1 ws2 ids :
  create_prices_loop (ws1 ++ ws2) [] ids =
  match create_prices_loop ws1 [] ids with
  | (inr es, _) => extend es (create_prices_loop ws2 [] ids)
  | (inl e, _) => (inl e, ids)
  end.
Proof.
  induction ws1 as [|w ws1 IH].
  - simpl. by rewrite extend_nil.
  - rewrite <- app_comm_cons, !create_prices_loop_cons.
    case_bool_decide; [|apply IH].
    destruct (price_conversion _) as [e|p]; [done|].
    rewrite (create_prices_loop_acc (ws1 ++ ws2)), (create_prices_loop_acc ws1), IH.
    destruct (create_prices_loop ws1 [] ids) as [[e|es] ids1]; simpl; [done|].
    by rewrite extend_extend.
Qed.

(** The offer ids of the price list are the row codes found in the id
    list, in row order. *)
Lemma create_prices_loop_codes ws ids es ids' :
  create_prices_loop ws [] ids = (inr es, ids') →
  map price_offer_id es = filter (λ c, c ∈ ids) (map (λ w, code w) ws).
Proof.
  revert es. induction ws as [|w ws IH]; intros es.
  - simpl. unfold ret. by intros [= <- _].
  - rewrite create_prices_loop_cons. simpl. case_bool_decide as Hin.
    + destruct (price_conversion _) as [e|p]; [done|].
      rewrite create_prices_loop_acc.
      destruct (create_prices_loop ws [] ids) as [[e|es1] ids1] eqn:E1; simpl; [done|].
      intros [= <- <-]. rewrite filter_cons_True by done. simpl.
      f_equal. by apply IH.
    + intros H. rewrite filter_cons_False by done. by apply IH.
Qed.

(** The first loop runs to its end when the quantity of every row can be
    read. *)
Lemma create_stocks_loop_returns ws ids :
  (∀ w, w ∈ ws → ∃ v, stock_value int_of_str w = inr v) →
  ∃ es ids', create_stocks_loop int_of_str ws [] ids = (inr es, ids').
Proof.
  revert ids. induction ws as [|w ws IH]; intros ids Hall.
  - by exists [], ids.
  - rewrite create_stocks_loop_cons.
    assert (∀ w', w' ∈ ws → ∃ v, stock_value int_of_str w' = inr v) as Hall'.
    { intros w' Hw'. apply Hall. by right. }
    destruct (list_remove_first _ ids) as [ids1|]; [|by apply IH].
    destruct (Hall w) as [v ->]; [by left|].
    rewrite create_stocks_loop_acc.
    destruct (IH ids1 Hall') as (es & ids' & ->). simpl. eauto.
Qed.

(** With no code of a row in the list, the price loop emits nothing. *)
Lemma create_prices_loop_none ws ids :
  (∀ w, w ∈ ws → code w ∉ ids) → create_prices_loop ws [] ids = (inr [], ids).
Proof.
  induction ws as [|w ws IH]; intros Hall; [done|].
  rewrite create_prices_loop_cons, bool_decide_eq_false_2.
  - apply IH. intros w' Hw'. apply Hall. by right.
  - apply Hall. by left.
Qed.

Lemma stock_value_cases w v :
  stock_value int_of_str w = inr v →
  (count w = ">10" ∧ v = 100) ∨
  (count w = "1" ∧ v = 0) ∨
  (count w ≠ ">10" ∧ count w ≠ "1" ∧
   py_int int_of_str (dict_get w "Количество") = inr v).
Proof.
  unfold stock_value. repeat case_decide.
  - intros [= <-]. by left.
  - intros [= <-]. right. by left.
  - intros Hint. right. by right.
Qed.

Lemma remaining_snoc before c ids :
  remaining (before ++ [c]) ids =
  match list_remove_first c (remaining before ids) with
  | Some ids' => ids'
  | None => remaining before ids
  end.
Proof.
  revert ids. induction before as [|b before IH]; intros ids; simpl.
  - by destruct (list_remove_first c ids).
  - destruct (list_remove_first b ids); apply IH.
Qed.

(** The entries of the first loop are those of the matched rows, in row
    order. *)
Lemma create_stocks_loop_matched before ws ids es ids' :
  create_stocks_loop int_of_str ws [] (remaining before ids) = (inr es, ids') →
  Forall2 (stock_entry_of int_of_str) (matched_rows before ws ids) es.
Proof.
  revert before es. induction ws as [|w ws IH]; intros before es.
  - simpl. unfold ret. intros [= <- _]. constructor.
  - rewrite create_stocks_loop_cons. simpl.
    pose proof (remaining_snoc before (code w) ids) as Hsnoc.
    assert ((occurrences (code w) before < occurrences (code w) ids)%nat ↔
            code w ∈ remaining before ids) as Hiff.
    { pose proof (occurrences_zero (code w) (remaining before ids)) as Hz.
      rewrite remaining_occurrences in Hz.
      destruct (decide (code w ∈ remaining before ids)) as [Hin|Hin].
      - split; [done|]. intros _.
        destruct (decide (occurrences (code w) before
                          < occurrences (code w) ids)%nat) as [|Hge]; [done|].
        exfalso. apply (proj1 Hz); [lia|done].
      - split; [|done]. intros Hlt. apply Hz in Hin. lia. }
    destruct (list_remove_first (code w) (remaining before ids)) as [ids1|] eqn:E.
    + rewrite decide_True
        by (apply Hiff, list_remove_first_elem; rewrite E; eauto).
      destruct (stock_value int_of_str w) as [e|v] eqn:Ev; [done|].
      rewrite create_stocks_loop_acc. rewrite <- Hsnoc.
      destruct (create_stocks_loop int_of_str ws [] (remaining (before ++ [code w]) ids))
        as [[e|es1] ids2] eqn:E1; simpl; [done|].
      intros [= <- <-]. constructor; [|by eapply IH].
      exists v. split; [done|]. by apply stock_value_cases.
    + rewrite decide_False.
      * rewrite <- Hsnoc. apply IH.
      * intros Hlt. apply Hiff, list_remove_first_elem in Hlt as [? ?]. congruence.
Qed.

End ReconcilerFacts.

Lemma matched_rows_distinct_codes before ws ids :
  NoDup (before ++ map (λ w, code w) ws) →
  matched_rows before ws ids = filter (λ w, code w ∈ ids) ws.
Proof.
  revert before. induction ws as [|w ws IH]; intros before Hnd; [done|].
  simpl in *. assert (occurrences (code w) before = 0%nat) as Hb.
  { apply occurrences_zero. apply NoDup_app in Hnd as (_ & Hdis & _).
    intros Hin. apply (Hdis _ Hin). by left. }
  assert (NoDup ((before ++ [code w]) ++ map (λ w, code w) ws)) as Hnd'
    by (by rewrite <- app_assoc).
  rewrite Hb, (IH _ Hnd').
  pose proof (occurrences_zero (code w) ids) as Hz.
  destruct (decide (code w ∈ ids)) as [Hin|Hin].
  - rewrite filter_cons_True by done. rewrite decide_True; [done|].
    destruct (occurrences (code w) ids); [|lia]. by destruct (proj1 Hz).
  - rewrite filter_cons_False by done. rewrite decide_False; [done|].
    rewrite (proj2 Hz Hin). lia.
Qed.

(** ** Facts about [divide] *)

Lemma parts_of_S {A} (lst : list A) n c :
  parts_of lst n (S c) = take n lst :: parts_of (drop n lst) n c.
Proof.
  unfold parts_of. rewrite <- cons_seq, <- fmap_S_seq. simpl.
  f_equal. rewrite <- list_fmap_compose. apply list_fmap_ext.
  intros _ k _. simpl. rewrite drop_drop. do 2 f_equal; lia.
Qed.

Lemma parts_of_concat {A} (lst : list A) n c :
  (length lst ≤ c * n)%nat → concat (parts_of lst n c) = lst.
Proof.
  revert lst. induction c as [|c IH]; intros lst Hlen.
  - simpl in *. destruct lst; [done | simpl in Hlen; lia].
  - rewrite parts_of_S. simpl. rewrite IH.
    + apply take_drop.
    + rewrite length_drop. lia.
Qed.

Lemma parts_of_lookup {A} (lst : list A) n c k p :
  parts_of lst n c !! k = Some p →
  (k < c)%nat ∧ p = take n (drop (k * n) lst).
Proof.
  unfold parts_of. rewrite list_lookup_fmap. intros H.
  destruct (seq 0 c !! k) as [j|] eqn:E; [|done].
  apply lookup_seq in E as [-> ?]. simpl in H. by injection H as <-.
Qed.

Lemma py_slice_window {A} (lst : list A) (i n : Z) :
  0 ≤ i → 0 ≤ n →
  py_slice lst i (i + n) = take (Z.to_nat n) (drop (Z.to_nat i) lst).
Proof.
  intros Hi Hn. unfold py_slice.
  rewrite !decide_False by lia.
  destruct (decide (i + n ≤ Z.of_nat (length lst))) as [Hle|Hgt].
  - do 2 f_equal; lia.
  - destruct (decide (i ≤ Z.of_nat (length lst))) as [Hle'|Hgt'].
    + rewrite Z.min_r, (Z.min_l i) by lia.
      rewrite !take_ge; [done | rewrite length_drop; lia | rewrite length_drop; lia].
    + rewrite !(drop_ge lst) by lia. by rewrite !take_nil.
Qed.

Lemma part_count_bounds len n :
  0 < n → 0 ≤ len →
  len ≤ Z.of_nat (part_count len n) * n ∧
  (0 < len → (Z.of_nat (part_count len n) - 1) * n < len).
Proof.
  intros Hn Hlen. unfold part_count. case_decide as Hpos; [|lia].
  pose proof (Z.div_mod (len - 1) n ltac:(lia)) as Hdm.
  pose proof (Z.mod_pos_bound (len - 1) n Hn) as Hmod.
  assert (0 ≤ (len - 1) / n) by (apply Z.div_pos; lia).
  rewrite Z2Nat.id by lia. split; [nia|]. intros _. nia.
Qed.

Lemma divide_pos {A} (lst : list A) (n : Z) :
  0 < n →
  divide lst n =
  inr (parts_of lst (Z.to_nat n) (part_count (Z.of_nat (length lst)) n)).
Proof.
  intros Hn. unfold divide, py_range, part_count.
  rewrite decide_False by lia. rewrite (decide_True (P := 0 < n)) by done.
  f_equal. unfold parts_of. rewrite Z.sub_0_r.
  rewrite <- list_fmap_compose. apply list_fmap_ext.
  intros _ k _. simpl. rewrite py_slice_window by lia.
  do 3 f_equal. lia.
Qed.

Lemma divide_concat {A} (lst : list A) n parts :
  0 < n → divide lst n = inr parts → concat parts = lst.
Proof.
  intros Hn. rewrite divide_pos by done. intros [= <-].
  apply parts_of_concat.
  pose proof (part_count_bounds (Z.of_nat (length lst)) n Hn ltac:(lia)) as [H _].
  nia.
Qed.

Lemma divide_part_length {A} (lst : list A) n parts k p :
  0 < n → divide lst n = inr parts → parts !! k = Some p →
  (1 ≤ length p ≤ Z.to_nat n)%nat ∧
  ((k + 1 < length parts)%nat → length p = Z.to_nat n).
Proof.
  intros Hn. rewrite divide_pos by done. intros [= <-] Hk.
  assert (length (parts_of lst (Z.to_nat n) (part_count (Z.of_nat (length lst)) n))
          = part_count (Z.of_nat (length lst)) n) as Hc.
  { unfold parts_of. by rewrite length_fmap, length_seq. }
  rewrite Hc. apply parts_of_lookup in Hk as [Hlt ->].
  rewrite length_take, length_drop.
  pose proof (part_count_bounds (Z.of_nat (length lst)) n Hn ltac:(lia)) as [_ H].
  assert (0 < Z.of_nat (length lst)) as Hpos.
  { unfold part_count in Hlt. case_decide; [done | simpl in Hlt; lia]. }
  specialize (H Hpos). split; [nia|]. intros Hk. nia.
Qed.

Lemma divide_part_bound {A} (lst : list A) n parts :
  0 < n → divide lst n = inr parts →
  Forall (λ p, Z.of_nat (length p) ≤ n) parts.
Proof.
  intros Hn Hd. apply Forall_lookup. intros k p Hk.
  destruct (divide_part_length lst n parts k p Hn Hd Hk) as [[_ H] _]. lia.
Qed.

(** ** Facts about [price_conversion] *)

Lemma py_split_first sep s :
  ∃ pre rest,
    py_split sep s = pre :: rest ∧
    (sep ∉ list_ascii_of_string pre) ∧
    ((rest = [] ∧ s = pre) ∨ (∃ post, s = pre +:+ String sep post)).
Proof.
  induction s as [|c s (pre & rest & Hs & Hn & Hcase)]; simpl.
  - exists EmptyString, []. split_and!; [done|apply not_elem_of_nil|by left].
  - destruct (decide (c = sep)) as [->|Hne].
    + exists EmptyString, (py_split sep s).
      split_and!; [done|apply not_elem_of_nil|]. right. by exists s.
    + rewrite Hs. exists (String c pre), rest. split_and!; [done| |].
      * simpl. apply not_elem_of_cons. split; [congruence|done].
      * destruct Hcase as [[-> ->]|[post ->]]; [by left|].
        right. by exists post.
Qed.

Lemma re_sub_non_digits_filter s :
  re_sub_non_digits s =
  string_of_list_ascii (List.filter is_ascii_digit (list_ascii_of_string s)).
Proof.
  induction s as [|c s IH]; simpl; [done|].
  destruct (is_ascii_digit c); simpl; by rewrite IH.
Qed.

(** ** A small program logic for the drivers *)

Lemma safe_ret {A} (a : A) (Q : A → Prop) : Q a → safe (io_ret a) Q.
Proof. intros HQ log Hlog. split; [done|]. simpl. by intros ? [= <-]. Qed.

Lemma safe_bind {A B} (m : IO A) (k : A → IO B) Q R :
  safe m Q → (∀ a, Q a → safe (k a) R) → safe (io_bind m k) R.
Proof.
  intros Hm Hk log Hlog. unfold io_bind.
  destruct (Hm log Hlog) as [Hlog' HQ].
  destruct (m log) as [[a|e|] log']; simpl in *; [|done..].
  by apply Hk; [apply HQ|].
Qed.

Lemma safe_weaken {A} (m : IO A) (Q R : A → Prop) :
  safe m Q → (∀ a, Q a → R a) → safe m R.
Proof. intros Hm HQR log Hlog. destruct (Hm log Hlog). naive_solver. Qed.

Lemma safe_lift {A} (r : exn + A) (Q : A → Prop) :
  (∀ a, r = inr a → Q a) → safe (io_lift r) Q.
Proof.
  intros HQ log Hlog. unfold io_lift. destruct r; simpl; [done|].
  split; [done|]. intros ? [= <-]. by apply HQ.
Qed.

Lemma safe_send {A} (r : request) (answer : nat → exn + A) :
  within_limits (Sent r) → safe (send r answer) (λ _, True).
Proof.
  intros Hr log Hlog. unfold send.
  destruct (answer _); simpl; (split; [|done]);
    apply Forall_app; split; try done; by constructor.
Qed.

Lemma safe_call {A} (m : M A) ids :
  safe (call m ids) (λ r, m ids = (inr r.1, r.2)).
Proof.
  intros log Hlog. unfold call.
  destruct (m ids) as [[e|a] ids']; simpl; [done|].
  split; [done|]. by intros ? [= <-].
Qed.

Lemma safe_for_each {A} (xs : list A) (body : A → IO unit) :
  Forall (λ x, safe (body x) (λ _, True)) xs →
  safe (for_each xs body) (λ _, True).
Proof.
  induction 1 as [|x xs Hx _ IH]; simpl.
  - by apply safe_ret.
  - eapply safe_bind; [exact Hx|]. intros _ _. exact IH.
Qed.

Lemma safe_try_print (m : IO unit) Q :
  safe m Q → safe (try_print m) (λ _, True).
Proof.
  intros Hm log Hlog. unfold try_print.
  destruct (Hm log Hlog) as [Hlog' _].
  destruct (m log) as [[a|e|] log']; simpl in *; (split; [|done]); try done.
  apply Forall_app. split; [done|]. by constructor.
Qed.

Section DriverFacts.

Variable int_of_str : string → option Z.
Variable srv : server.

Lemma safe_get_offer_ids_loop fuel last_id product_list :
  safe (get_offer_ids_loop srv fuel last_id product_list) (λ _, True).
Proof.
  revert last_id product_list. induction fuel as [|fuel IH]; intros last_id pl.
  - intros log Hlog. done.
  - simpl. eapply safe_bind; [apply (safe_send (ProductList last_id)); exact I|].
    intros p _. case_decide; [by apply safe_ret|apply IH].
Qed.

Lemma safe_get_offer_ids fuel : safe (get_offer_ids srv fuel) (λ _, True).
Proof.
  eapply safe_bind; [apply safe_get_offer_ids_loop|].
  intros ? _. by apply safe_ret.
Qed.

Lemma safe_divide {A} (lst : list A) (n : Z) :
  0 < n →
  safe (io_lift (divide lst n)) (λ parts, Forall (λ p, Z.of_nat (length p) ≤ n) parts).
Proof.
  intros Hn. apply safe_lift. intros parts Hparts. by eapply divide_part_bound.
Qed.

Lemma safe_update_stocks_each (parts : list (list stock_entry)) :
  Forall (λ p, Z.of_nat (length p) ≤ 100) parts →
  safe (for_each parts (update_stocks srv)) (λ _, True).
Proof.
  intros Hparts. apply safe_for_each. eapply Forall_impl; [exact Hparts|].
  intros p Hp. apply (safe_send (ImportStocks p)). simpl in *. lia.
Qed.

Lemma safe_update_price_each (parts : list (list price_entry)) :
  Forall (λ p, Z.of_nat (length p) ≤ 1000) parts →
  safe (for_each parts (update_price srv)) (λ _, True).
Proof.
  intros Hparts. apply safe_for_each. eapply Forall_impl; [exact Hparts|].
  intros p Hp. apply (safe_send (ImportPrices p)). simpl in *. lia.
Qed.

Lemma safe_main fuel : safe (main int_of_str srv fuel) (λ _, True).
Proof.
  apply (safe_try_print _ (λ _, True)).
  eapply safe_bind; [apply safe_get_offer_ids|]. intros offer_ids _.
  eapply safe_bind; [apply (safe_send Ostatki); exact I|]. intros rows _.
  eapply safe_bind; [apply safe_call|]. intros r _.
  eapply safe_bind; [apply (safe_divide _ 100); lia|]. intros parts Hparts.
  eapply safe_bind; [by apply safe_update_stocks_each|]. intros _ _.
  eapply safe_bind; [apply safe_call|]. intros r' _.
  eapply safe_bind; [apply (safe_divide _ 900); lia|]. intros parts' Hparts'.
  eapply safe_bind; [|intros _ _; by apply safe_ret].
  apply safe_update_price_each. eapply Forall_impl; [exact Hparts'|].
  simpl. intros p Hp. lia.
Qed.

Lemma safe_upload_stocks fuel ws :
  safe (upload_stocks int_of_str srv fuel ws) (λ _, True).
Proof.
  eapply safe_bind; [apply safe_get_offer_ids|]. intros offer_ids _.
  eapply safe_bind; [apply safe_call|]. intros r _.
  eapply safe_bind; [apply (safe_divide _ 100); lia|]. intros parts Hparts.
  eapply safe_bind; [by apply safe_update_stocks_each|]. intros _ _.
  by apply safe_ret.
Qed.

Lemma safe_upload_prices fuel ws : safe (upload_prices srv fuel ws) (λ _, True).
Proof.
  eapply safe_bind; [apply safe_get_offer_ids|]. intros offer_ids _.
  eapply safe_bind; [apply safe_call|]. intros r _.
  eapply safe_bind; [apply (safe_divide _ 1000); lia|]. intros parts Hparts.
  eapply safe_bind; [by apply safe_update_price_each|]. intros _ _.
  by apply safe_ret.
Qed.

End DriverFacts.

(** ** The paginated fetch against a sequence of replies *)

Section Fetch.

Variable srv : server.
Variable pages : nat → page.

Lemma fetched_S k : fetched pages (S k) = fetched pages k ++ items (pages k).
Proof.
  unfold fetched. rewrite seq_S, map_app, concat_app. simpl.
  by rewrite app_nil_r.
Qed.

Lemma requests_S k :
  requests pages (S k) = requests pages k ++ [Sent (ProductList (cursor pages k))].
Proof. unfold requests. by rewrite seq_S, map_app. Qed.

Lemma length_requests k : length (requests pages k) = k.
Proof. unfold requests. by rewrite length_map, length_seq. Qed.

Lemma first_complete_below n :
  (∀ j, (j < n)%nat → ¬ complete pages j) ∨
  (∃ m, (m < n)%nat ∧ complete pages m ∧ ∀ j, (j < m)%nat → ¬ complete pages j).
Proof.
  induction n as [|n [Hnone|(m & Hm & Hc & Hleast)]].
  - left. intros j Hj. lia.
  - destruct (decide (complete pages n)) as [Hc|Hc].
    + right. exists n. split_and!; [lia|done..].
    + left. intros j Hj. destruct (decide (j = n)) as [->|]; [done|].
      apply Hnone. lia.
  - right. exists m. split_and!; [lia|done..].
Qed.

Lemma first_complete n :
  complete pages n →
  ∃ m, (m ≤ n)%nat ∧ complete pages m ∧ ∀ j, (j < m)%nat → ¬ complete pages j.
Proof.
  intros Hn. destruct (first_complete_below (S n)) as [Hnone|(m & Hm & Hc & Hl)].
  - destruct (Hnone n); [lia|done].
  - exists m. split_and!; [lia|done..].
Qed.

Lemma get_offer_ids_loop_run d j fuel :
  (∀ i, (j ≤ i ≤ j + d)%nat → product_list srv i (cursor pages i) = inr (pages i)) →
  (∀ i, (j ≤ i < j + d)%nat → ¬ complete pages i) →
  complete pages (j + d) →
  (d < fuel)%nat →
  get_offer_ids_loop srv fuel (cursor pages j) (fetched pages j) (requests pages j) =
  (Done (fetched pages (S (j + d))), requests pages (S (j + d))).
Proof.
  revert j fuel. induction d as [|d IH]; intros j fuel Hrep Hnot Hc Hfuel;
    (destruct fuel as [|fuel]; [lia|]); simpl;
    unfold io_bind, get_product_list, send;
    rewrite length_requests, (Hrep j) by lia;
    rewrite <- requests_S, <- fetched_S.
  - rewrite Nat.add_0_r in *. by rewrite decide_True.
  - rewrite decide_False by (apply Hnot; lia).
    replace (j + S d)%nat with (S j + d)%nat in * by lia.
    apply (IH (S j)); [intros; apply Hrep; lia|intros; apply Hnot; lia|done|lia].
Qed.

Lemma get_offer_ids_run m fuel :
  (∀ i, (i ≤ m)%nat → product_list srv i (cursor pages i) = inr (pages i)) →
  (∀ i, (i < m)%nat → ¬ complete pages i) →
  complete pages m →
  (m < fuel)%nat →
  get_offer_ids srv fuel [] =
  (Done (map offer_id (fetched pages (S m))), requests pages (S m)).
Proof.
  intros Hrep Hnot Hc Hfuel. unfold get_offer_ids, io_bind.
  assert (get_offer_ids_loop srv fuel "" [] [] =
          (Done (fetched pages (S m)), requests pages (S m))) as ->.
  { apply (get_offer_ids_loop_run m 0 fuel);
      [intros; apply Hrep; lia|intros; apply Hnot; lia|done..]. }
  unfold io_ret. by rewrite foldl_snoc_map.
Qed.

(** Without a complete pages reply the loop never leaves. *)
Lemma get_offer_ids_loop_spins fuel j :
  (∀ i, product_list srv i (cursor pages i) = inr (pages i)) →
  (∀ i, ¬ complete pages i) →
  (get_offer_ids_loop srv fuel (cursor pages j) (fetched pages j) (requests pages j)).1 = Running.
Proof.
  intros Hrep Hnot. revert j. induction fuel as [|fuel IH]; intros j; [done|].
  simpl. unfold io_bind, get_product_list, send.
  rewrite length_requests, Hrep, <- requests_S, <- fetched_S.
  rewrite decide_False by apply Hnot. apply (IH (S j)).
Qed.

End Fetch.

(** ** More facts about lists *)

Lemma filter_all {A} (P : A → Prop) `{∀ x, Decision (P x)} (l : list A) :
  Forall P l → filter P l = l.
Proof.
  induction 1 as [|x l Hx _ IH]; [done|].
  by rewrite filter_cons_True, IH.
Qed.

Lemma filter_ext_elem {A} (P Q : A → Prop)
    `{∀ x, Decision (P x)} `{∀ x, Decision (Q x)} (l : list A) :
  (∀ x, x ∈ l → P x ↔ Q x) → filter P l = filter Q l.
Proof.
  induction l as [|x l IH]; intros Hext; [done|].
  assert (filter P l = filter Q l) as Hl.
  { apply IH. intros z Hz. apply Hext. by right. }
  destruct (decide (P x)) as [HP|HP].
  - rewrite !filter_cons_True; [by rewrite Hl| |done]. apply Hext; [by left|done].
  - rewrite !filter_cons_False; [done| |done]. intros HQ. apply HP, Hext; [by left|done].
Qed.

Lemma list_remove_first_Permutation x l l' :
  list_remove_first x l = Some l' → l ≡ₚ x :: l'.
Proof.
  intros (l1 & l2 & -> & -> & _)%list_remove_first_split.
  by rewrite Permutation_middle.
Qed.

Lemma list_remove_first_NoDup_filter x l l' :
  list_remove_first x l = Some l' → NoDup l → l' = filter (λ z, z ≠ x) l.
Proof.
  intros (l1 & l2 & -> & -> & Hn)%list_remove_first_split Hnd.
  apply NoDup_app in Hnd as (_ & _ & H2). apply NoDup_cons in H2 as [Hx _].
  rewrite filter_app, filter_cons_False by (intros H; by apply H).
  f_equal; symmetry; apply filter_all, Forall_forall; by intros z Hz ->.
Qed.

Lemma remaining_NoDup_filter codes ids :
  NoDup ids → remaining codes ids = filter (λ i, i ∉ codes) ids.
Proof.
  revert ids. induction codes as [|c cs IH]; intros ids Hnd; simpl.
  - symmetry. apply filter_all, Forall_forall. intros z _.
    apply not_elem_of_nil.
  - destruct (list_remove_first c ids) as [ids1|] eqn:E.
    + destruct (list_remove_first_NoDup _ _ _ E Hnd) as [Hnd1 _].
      rewrite IH by done. rewrite (list_remove_first_NoDup_filter _ _ _ E Hnd).
      rewrite list_filter_filter. apply list_filter_iff. intros z.
      rewrite not_elem_of_cons. tauto.
    + rewrite IH by done. apply filter_ext_elem. intros z Hz.
      rewrite not_elem_of_cons. split; [|tauto]. intros Hn. split; [|done].
      intros ->. apply list_remove_first_elem in Hz as [? ?]. congruence.
Qed.

Section ReconcilerMore.

Variable int_of_str : string → option Z.

Lemma create_stocks_loop_Permutation ws ids es ids' :
  create_stocks_loop int_of_str ws [] ids = (inr es, ids') →
  map stock_offer_id es ++ ids' ≡ₚ ids.
Proof.
  revert ids es. induction ws as [|w ws IH]; intros ids es.
  - simpl. unfold ret. by intros [= <- <-].
  - rewrite create_stocks_loop_cons.
    destruct (list_remove_first _ ids) as [ids1|] eqn:E; [|apply IH].
    destruct (stock_value int_of_str w) as [e|v]; [done|].
    rewrite create_stocks_loop_acc.
    destruct (create_stocks_loop int_of_str ws [] ids1) as [[e|es1] ids2] eqn:E1;
      simpl; [done|].
    intros [= <- <-]. simpl. rewrite (IH _ _ E1).
    symmetry. by apply list_remove_first_Permutation.
Qed.

Lemma py_int_exn v e :
  py_int int_of_str v = inl e → e = ValueError ∨ e = TypeError.
Proof.
  destruct v as [|s|z]; simpl; [intros [= <-]; by right| |done].
  destruct (int_of_str s); [done|]. intros [= <-]. by left.
Qed.

Lemma create_stocks_loop_raises ws ids e ids' :
  create_stocks_loop int_of_str ws [] ids = (inl e, ids') →
  ∃ w, w ∈ ws ∧ code w ∈ ids ∧ count w ≠ ">10" ∧ count w ≠ "1" ∧
       py_int int_of_str (dict_get w "Количество") = inl e.
Proof.
  revert ids. induction ws as [|w ws IH]; intros ids; [done|].
  rewrite create_stocks_loop_cons.
  destruct (list_remove_first _ ids) as [ids1|] eqn:E.
  - assert (code w ∈ ids) as Hin by (apply list_remove_first_elem; rewrite E; eauto).
    destruct (stock_value int_of_str w) as [e'|v] eqn:Ev.
    + intros [= -> <-]. exists w. unfold stock_value in Ev.
      repeat case_decide; try done.
      split; [by left|]. split; [done|]. split; [done|]. split; done.
    + rewrite create_stocks_loop_acc.
      destruct (create_stocks_loop int_of_str ws [] ids1) as [[e'|es1] ids2] eqn:E1;
        simpl; [|done].
      intros [= -> <-]. destruct (IH _ E1) as (w' & Hw' & Hc & Hrest).
      exists w'. split; [by right|]. split; [|done].
      eapply elem_of_sublist; [done|by eapply list_remove_first_sublist].
  - intros H. destruct (IH _ H) as (w' & Hw' & Hrest).
    exists w'. split; [by right|done].
Qed.

End ReconcilerMore.

Lemma create_stocks_lengths (int_of_str : string → option Z)
    (ws : list watch) (ids : list string) out ids' :
  create_stocks int_of_str ws ids = (inr out, ids') →
  length out = length ids ∧
  ((∃ w, w ∈ ws ∧ code w ∈ ids) → (length ids' < length ids)%nat).
Proof.
  intros Hst. rewrite create_stocks_eq in Hst.
  destruct (create_stocks_loop int_of_str ws [] ids) as [[e|es] ids1] eqn:E; [done|].
  injection Hst as <- <-.
  pose proof (create_stocks_loop_Permutation _ _ _ _ _ E) as Hp.
  apply Permutation_length in Hp. rewrite length_app, length_map in Hp.
  split; [by rewrite length_app, length_map|].
  intros (w & Hw & Hin). cut (es ≠ []).
  { destruct es; [done|]. simpl in Hp. lia. }
  clear Hp. revert es E. induction ws as [|w0 ws IH]; intros es.
  { by apply elem_of_nil in Hw. }
  rewrite create_stocks_loop_cons.
  destruct (list_remove_first (code w0) ids) as [ids2|] eqn:Erm.
  - destruct (stock_value int_of_str w0) as [e|v]; [done|].
    rewrite create_stocks_loop_acc.
    destruct (create_stocks_loop int_of_str ws [] ids2) as [[e|es2] ids3]; simpl; [done|].
    by intros [= <- _].
  - apply IH. apply elem_of_cons in Hw as [->|Hw]; [|done].
    apply list_remove_first_elem in Hin as [? ?]. congruence.
Qed.

Lemma create_stocks_none (int_of_str : string → option Z)
    (ws : list watch) (ids : list string) :
  (∀ w, w ∈ ws → code w ∉ ids) →
  create_stocks int_of_str ws ids = (inr (map (λ id, StockEntry id 0) ids), ids).
Proof.
  intros Hnone. rewrite create_stocks_eq.
  assert (create_stocks_loop int_of_str ws [] ids = (inr [], ids)) as ->; [|done].
  induction ws as [|w ws IH]; [done|].
  rewrite create_stocks_loop_skip by (apply Hnone; by left).
  apply IH. intros w' Hw'. apply Hnone. by right.
Qed.

(** * The claims of the specification *)

(** C1 (both reconcilers are to leave their argument lists as they were):
    [create_prices] does, but [create_stocks] takes every matched code out
    of the caller's list.  Called with the single row of code A and the
    list holding A, it returns the entry for A and leaves the list empty;
    [create_prices] on the list as it was gives the price of A, and on the
    same list object after [create_stocks], as in [main], gives nothing. *)
Theorem create_stocks_empties_offer_ids :
  create_stocks int_of_digits [watch_A] ["A"] = (inr [StockEntry "A" 100], []) ∧
  create_prices [watch_A] ["A"]
    = (inr [PriceEntry "UNKNOWN" "RUB" "A" "0" "5990"], ["A"]) ∧
  reconcile int_of_digits [watch_A] ["A"] = (inr ([StockEntry "A" 100], []), []).
Proof. split_and!; reflexivity. Qed.

(** C2, as stated, fails when an id occurs twice in the list: one
    occurrence of A survives [create_stocks], and the price pass on the
    same list finds the row again. *)
Lemma prices_after_stocks_repeated_id :
  create_stocks int_of_digits [watch_A] ["A"; "A"]
    = (inr [StockEntry "A" 100; StockEntry "A" 0], ["A"]) ∧
  create_prices [watch_A] ["A"]
    = (inr [PriceEntry "UNKNOWN" "RUB" "A" "0" "5990"], ["A"]).
Proof. split; reflexivity. Qed.

(** C2, amended: when [create_stocks] returns, [create_prices] on the same
    list returns the empty price list exactly when no code of a row occurs
    in the id list more often than among the codes of the rows; this is so,
    and no code of a row is left in the list, whenever no id occurs twice
    in the list. *)
Theorem prices_after_stocks_empty (int_of_str : string → option Z)
    (ws : list watch) (ids : list string) stocks ids' :
  create_stocks int_of_str ws ids = (inr stocks, ids') →
  (create_prices ws ids' = (inr [], ids') ↔
   ∀ w, w ∈ ws →
     (occurrences (code w) ids ≤ occurrences (code w) (map (λ w, code w) ws))%nat) ∧
  (NoDup ids →
   (∀ w, w ∈ ws → code w ∉ ids') ∧ create_prices ws ids' = (inr [], ids')).
Proof.
  intros Hst. rewrite create_stocks_eq in Hst.
  destruct (create_stocks_loop int_of_str ws [] ids) as [[e|es] ids1] eqn:E; [done|].
  injection Hst as _ <-. apply create_stocks_loop_state in E as ->.
  assert (∀ c, c ∉ remaining (map (λ w, code w) ws) ids ↔
               (occurrences c ids ≤ occurrences c (map (λ w, code w) ws))%nat)
    as Hleft.
  { intros c. rewrite <- occurrences_zero, remaining_occurrences. lia. }
  split.
  - split.
    + intros Hpr w Hw. apply Hleft. intros Hin.
      apply create_prices_loop_codes in Hpr.
      assert (code w ∈ map price_offer_id []) as Hf; [|by apply elem_of_nil in Hf].
      rewrite Hpr. apply list_elem_of_filter. split; [done|].
      apply list_elem_of_fmap. eauto.
    + intros Hocc. apply create_prices_loop_none.
      intros w Hw. by apply Hleft, Hocc.
  - intros Hnd.
    assert (∀ w, w ∈ ws → code w ∉ remaining (map (λ w, code w) ws) ids) as Hgone.
    { intros w Hw. apply remaining_NoDup_consumed; [done|].
      apply list_elem_of_fmap. eauto. }
    split; [done|]. by apply create_prices_loop_none.
Qed.

Lemma prices_after_stocks_empty_witness :
  create_stocks int_of_digits [watch_A; watch_B] ["A"; "B"; "C"]
    = (inr [StockEntry "A" 100; StockEntry "B" 0; StockEntry "C" 0], ["C"]) ∧
  NoDup ["A"; "B"; "C"] ∧
  create_prices [watch_A; watch_B] ["C"] = (inr [], ["C"]).
Proof.
  assert (NoDup ["A"; "B"; "C"]) as Hnd
    by (apply (bool_decide_unpack _); vm_compute; exact I).
  split_and!; [reflexivity|exact Hnd|].
  exact (proj2 (proj2 (prices_after_stocks_empty int_of_digits [watch_A; watch_B]
                         ["A"; "B"; "C"]
                         [StockEntry "A" 100; StockEntry "B" 0; StockEntry "C" 0]
                         ["C"] eq_refl) Hnd)).
Defined.

(** C3, as stated, fails when an unmatched id occurs twice in the list: it
    then gets two zero entries, not one. *)
Lemma unmatched_repeated_id_twice :
  create_stocks int_of_digits [] ["C"; "C"]
    = (inr [StockEntry "C" 0; StockEntry "C" 0], ["C"; "C"]) ∧
  filter (λ e, stock_offer_id e = "C") [StockEntry "C" 0; StockEntry "C" 0]
    ≠ [StockEntry "C" 0].
Proof. split; [reflexivity|discriminate]. Qed.

(** C3, amended: [create_stocks] returns when the quantity of every row
    can be read, and when it returns, its output is the entries of the
    matched rows, in row order, followed by one zero entry for each id left
    in the list, in list order.  A row is matched when the list holds its
    code more often than the rows before it carry it - when no two rows
    share a code, when its code is in the list - and its entry carries its
    code and the stock of its quantity.  The list is left with each id as
    often as it held it beyond the rows that carry it; an id of the list
    that is the code of no row is left in the list and has as many entries
    as it has occurrences in the list, all of them zero entries - exactly
    one when no id occurs twice. *)
Theorem create_stocks_zero_for_unmatched (int_of_str : string → option Z)
    (ws : list watch) (ids : list string) :
  ((∀ w, w ∈ ws → ∃ v, stock_value int_of_str w = inr v) →
   ∃ out ids', create_stocks int_of_str ws ids = (inr out, ids')) ∧
  ∀ out ids', create_stocks int_of_str ws ids = (inr out, ids') →
    ∃ matched,
      out = matched ++ map (λ id, StockEntry id 0) ids' ∧
      Forall2 (stock_entry_of int_of_str) (matched_rows [] ws ids) matched ∧
      (NoDup (map (λ w, code w) ws) →
       Forall2 (stock_entry_of int_of_str) (filter (λ w, code w ∈ ids) ws) matched) ∧
      sublist (map stock_offer_id matched) (map (λ w, code w) ws) ∧
      sublist ids' ids ∧
      (∀ id, occurrences id ids'
             = (occurrences id ids - occurrences id (map (λ w, code w) ws))%nat) ∧
      (NoDup ids → ids' = filter (λ i, i ∉ map (λ w, code w) ws) ids) ∧
      ∀ id, id ∈ ids → id ∉ map (λ w, code w) ws →
        id ∈ ids' ∧
        filter (λ e, stock_offer_id e = id) out
          = map (λ i, StockEntry i 0) (filter (λ i, i = id) ids) ∧
        (NoDup ids → filter (λ e, stock_offer_id e = id) out = [StockEntry id 0]).
Proof.
  split.
  { intros Hall. rewrite create_stocks_eq.
    destruct (create_stocks_loop_returns int_of_str ws ids Hall) as (es & ids' & ->).
    eauto. }
  intros out ids' Hst. rewrite create_stocks_eq in Hst.
  destruct (create_stocks_loop int_of_str ws [] ids) as [[e|es] ids1] eqn:E; [done|].
  injection Hst as <- <-. exists es.
  destruct (create_stocks_loop_codes _ _ _ _ _ E) as [Hsub _].
  pose proof (create_stocks_loop_matched int_of_str [] ws ids es ids1 E) as Hm.
  apply create_stocks_loop_state in E as ->.
  split; [done|]. split; [exact Hm|]. split.
  { intros Hnd. by rewrite <- (matched_rows_distinct_codes [] ws ids). }
  split; [done|]. split; [apply remaining_sublist|]. split.
  { intros id. apply remaining_occurrences. }
  split; [by apply remaining_NoDup_filter|].
  intros id Hin Hnot.
  pose proof (remaining_filter_other _ ids id Hnot) as Hrem.
  assert (filter (λ e, stock_offer_id e = id)
            (es ++ map (λ i, StockEntry i 0) (remaining (map (λ w, code w) ws) ids))
          = map (λ i, StockEntry i 0) (filter (λ i, i = id) ids)) as Hout.
  { rewrite filter_app, (filter_none _ es), app_nil_l.
    - rewrite <- Hrem. generalize (remaining (map (λ w, code w) ws) ids).
      intros l. induction l as [|i l IH]; [done|]. simpl.
      destruct (decide (i = id)) as [->|Hne].
      + rewrite !filter_cons_True by done. simpl. by rewrite IH.
      + rewrite !filter_cons_False by done. exact IH.
    - apply Forall_forall. intros e He <-. apply Hnot.
      eapply elem_of_sublist; [|exact Hsub]. apply list_elem_of_fmap. eauto. }
  split_and!; [|exact Hout|].
  - assert (id ∈ filter (λ i, i = id) ids) as Hf by (by apply list_elem_of_filter).
    rewrite <- Hrem in Hf. by apply list_elem_of_filter in Hf as [_ ?].
  - intros Hnd. rewrite Hout, filter_eq_NoDup by done. done.
Qed.

Lemma create_stocks_zero_for_unmatched_witness :
  create_stocks int_of_digits [watch_A; watch_X; watch_A2; watch_B] ["A"; "B"; "C"]
    = (inr [StockEntry "A" 100; StockEntry "B" 0; StockEntry "C" 0], ["C"]) ∧
  matched_rows [] [watch_A; watch_X; watch_A2; watch_B] ["A"; "B"; "C"]
    = [watch_A; watch_B] ∧
  ("C" ∈ ["A"; "B"; "C"]) ∧
  ("C" ∉ map (λ w, code w) [watch_A; watch_X; watch_A2; watch_B]) ∧
  NoDup ["A"; "B"; "C"] ∧
  (∃ matched,
     [StockEntry "A" 100; StockEntry "B" 0; StockEntry "C" 0]
       = matched ++ map (λ id, StockEntry id 0) ["C"] ∧
     Forall2 (stock_entry_of int_of_digits) [watch_A; watch_B] matched) ∧
  filter (λ e, stock_offer_id e = "C")
      [StockEntry "A" 100; StockEntry "B" 0; StockEntry "C" 0]
    = [StockEntry "C" 0].
Proof.
  assert ("C" ∈ ["A"; "B"; "C"]) as Hin
    by (apply (bool_decide_unpack _); vm_compute; exact I).
  assert ("C" ∉ map (λ w, code w) [watch_A; watch_X; watch_A2; watch_B]) as Hnot
    by (apply (bool_decide_unpack _); vm_compute; exact I).
  assert (NoDup ["A"; "B"; "C"]) as Hnd
    by (apply (bool_decide_unpack _); vm_compute; exact I).
  assert (matched_rows [] [watch_A; watch_X; watch_A2; watch_B] ["A"; "B"; "C"]
          = [watch_A; watch_B]) as Hrows by (vm_compute; reflexivity).
  split; [reflexivity|]. split; [exact Hrows|].
  split; [exact Hin|]. split; [exact Hnot|]. split; [exact Hnd|].
  destruct (proj2 (create_stocks_zero_for_unmatched int_of_digits
                     [watch_A; watch_X; watch_A2; watch_B] ["A"; "B"; "C"])
              [StockEntry "A" 100; StockEntry "B" 0; StockEntry "C" 0] ["C"] eq_refl)
    as (matched & Hout & Hm & _ & _ & _ & _ & _ & Hid).
  split.
  - exists matched. split; [exact Hout|]. rewrite <- Hrows. exact Hm.
  - exact (proj2 (proj2 (Hid "C" Hin Hnot)) Hnd).
Defined.

(** C4, as stated, fails when two rows carry the same known code:
    [create_prices] emits an entry for each of them. *)
Lemma create_prices_repeated_code :
  create_prices [watch_A; watch_A2] ["A"]
    = (inr [PriceEntry "UNKNOWN" "RUB" "A" "0" "5990";
            PriceEntry "UNKNOWN" "RUB" "A" "0" "120"], ["A"]) ∧
  ¬ NoDup (map price_offer_id [PriceEntry "UNKNOWN" "RUB" "A" "0" "5990";
                               PriceEntry "UNKNOWN" "RUB" "A" "0" "120"]).
Proof.
  split; [reflexivity|]. simpl. intros Hnd.
  apply NoDup_cons in Hnd as [Hn _]. apply Hn. by left.
Qed.

(** C4, amended: a row whose code is not in the id list changes nothing in
    either result, and no entry of either output carries a code outside the
    list; [create_prices] emits one entry for each row whose code is in the
    list, in row order, hence at most one entry per id when no two rows
    share a code. *)
Theorem unknown_code_ignored (int_of_str : string → option Z)
    (ws : list watch) (ids : list string) :
  (∀ pre w post, ws = pre ++ w :: post → code w ∉ ids →
     create_stocks int_of_str ws ids = create_stocks int_of_str (pre ++ post) ids ∧
     create_prices ws ids = create_prices (pre ++ post) ids) ∧
  (∀ out ids', create_stocks int_of_str ws ids = (inr out, ids') →
     Forall (λ e, stock_offer_id e ∈ ids) out) ∧
  (∀ out ids', create_prices ws ids = (inr out, ids') →
     Forall (λ e, price_offer_id e ∈ ids) out ∧
     map price_offer_id out = filter (λ c, c ∈ ids) (map (λ w, code w) ws) ∧
     (NoDup (map (λ w, code w) ws) → NoDup (map price_offer_id out))).
Proof.
  split_and!.
  - intros pre w post -> Hn. split.
    + rewrite !create_stocks_eq, !create_stocks_loop_app.
      pose proof (create_stocks_loop_shrinks int_of_str pre [] ids) as Hsub.
      destruct (create_stocks_loop int_of_str pre [] ids) as [[e|es] ids1]; [done|].
      simpl in Hsub. rewrite create_stocks_loop_skip; [done|].
      intros Hin. apply Hn. by eapply elem_of_sublist.
    + unfold create_prices. rewrite !create_prices_loop_app.
      destruct (create_prices_loop pre [] ids) as [[e|es] ids1]; [done|].
      by rewrite create_prices_loop_cons, bool_decide_eq_false_2.
  - intros out ids' Hst. rewrite create_stocks_eq in Hst.
    destruct (create_stocks_loop int_of_str ws [] ids) as [[e|es] ids1] eqn:E; [done|].
    injection Hst as <- <-.
    destruct (create_stocks_loop_codes _ _ _ _ _ E) as [_ Hes].
    apply create_stocks_loop_state in E as ->.
    apply Forall_app. split; [done|]. apply Forall_fmap, Forall_forall.
    intros id Hid. simpl. eapply elem_of_sublist; [done|apply remaining_sublist].
  - intros out ids' Hpr. unfold create_prices in Hpr.
    pose proof (create_prices_loop_codes _ _ _ _ Hpr) as Hcodes.
    split_and!; [|done|].
    + apply Forall_forall. intros e He.
      assert (price_offer_id e ∈ map price_offer_id out) as Hin.
      { apply list_elem_of_fmap. eauto. }
      rewrite Hcodes in Hin. by apply list_elem_of_filter in Hin as [? _].
    + intros Hnd. rewrite Hcodes. by apply NoDup_filter.
Qed.

Lemma unknown_code_ignored_witness :
  [watch_A; watch_X; watch_B] = [watch_A] ++ watch_X :: [watch_B] ∧
  (code watch_X ∉ ["A"; "B"; "C"]) ∧
  create_stocks int_of_digits [watch_A; watch_X; watch_B] ["A"; "B"; "C"]
    = create_stocks int_of_digits ([watch_A] ++ [watch_B]) ["A"; "B"; "C"] ∧
  create_prices [watch_A; watch_X; watch_B] ["A"; "B"; "C"]
    = create_prices ([watch_A] ++ [watch_B]) ["A"; "B"; "C"].
Proof.
  assert (code watch_X ∉ ["A"; "B"; "C"]) as Hn
    by (apply (bool_decide_unpack _); vm_compute; exact I).
  split_and!; [reflexivity|exact Hn|..];
    apply (unknown_code_ignored int_of_digits [watch_A; watch_X; watch_B]
             ["A"; "B"; "C"]) with (pre := [watch_A]) (w := watch_X) (post := [watch_B]);
    (reflexivity || exact Hn).
Defined.

(** C5, as stated, fails for a row whose code is in the id list the
    caller gave but has been used up by an earlier row: of two rows with
    the code A and the list holding A once, the second, with the quantity
    7, gets no entry at all. *)
Lemma create_stocks_second_row_same_code :
  (code watch_A2 ∈ ["A"]) ∧
  py_int int_of_digits (dict_get watch_A2 "Количество") = inr 7 ∧
  create_stocks int_of_digits [watch_A; watch_A2] ["A"]
    = (inr [StockEntry "A" 100], []) ∧
  (StockEntry "A" 7 ∉ [StockEntry "A" 100]).
Proof.
  split; [apply (bool_decide_unpack _); vm_compute; exact I|].
  split; [reflexivity|]. split; [reflexivity|].
  apply (bool_decide_unpack _). vm_compute. exact I.
Qed.

(** C5, amended: when the first loop of [create_stocks] reaches a row whose
    code is in the id list as the earlier rows left it, the entry it
    appends carries the row's code and the stock 100 for the quantity
    ">10", 0 for the quantity "1", and otherwise the integer that [int]
    reads from the quantity: with the row as the last one [create_stocks]
    returns the entries so far, this entry and the zero entries; with rows
    after it, the entry stands at its place in whatever [create_stocks]
    returns; when [int] raises, [create_stocks] raises the same
    exception. *)
Theorem create_stocks_quantization (int_of_str : string → option Z)
    (pre : list watch) (w : watch) (post : list watch) (ids : list string)
    stocks1 ids1 :
  create_stocks_loop int_of_str pre [] ids = (inr stocks1, ids1) →
  code w ∈ ids1 →
  (∃ ids2, list_remove_first (code w) ids1 = Some ids2 ∧
     ∀ v, (count w = ">10" ∧ v = 100) ∨
          (count w = "1" ∧ v = 0) ∨
          (count w ≠ ">10" ∧ count w ≠ "1" ∧
           py_int int_of_str (dict_get w "Количество") = inr v) →
       create_stocks int_of_str (pre ++ [w]) ids =
         (inr (stocks1 ++ StockEntry (code w) v :: map (λ id, StockEntry id 0) ids2),
          ids2)) ∧
  (∀ out ids', create_stocks int_of_str (pre ++ w :: post) ids = (inr out, ids') →
     ∃ v, out !! length stocks1 = Some (StockEntry (code w) v) ∧
          (count w = ">10" → v = 100) ∧
          (count w = "1" → v = 0) ∧
          (count w ≠ ">10" → count w ≠ "1" →
           py_int int_of_str (dict_get w "Количество") = inr v)) ∧
  (∀ e, count w ≠ ">10" → count w ≠ "1" →
     py_int int_of_str (dict_get w "Количество") = inl e →
     create_stocks int_of_str (pre ++ w :: post) ids = (inl e, ids1)).
Proof.
  intros Hpre Hin.
  apply list_remove_first_elem in Hin as [ids2 Hrm].
  assert (∀ rest, create_stocks_loop int_of_str (pre ++ w :: rest) [] ids =
          match stock_value int_of_str w with
          | inr v => extend (stocks1 ++ [StockEntry (code w) v])
                       (create_stocks_loop int_of_str rest [] ids2)
          | inl e => (inl e, ids1)
          end) as Hloop.
  { intros rest.
    rewrite create_stocks_loop_app, Hpre, create_stocks_loop_cons, Hrm.
    destruct (stock_value int_of_str w) as [e|v]; [done|].
    by rewrite create_stocks_loop_acc, extend_extend. }
  split_and!.
  - exists ids2. split; [done|]. intros v Hv.
    assert (stock_value int_of_str w = inr v) as Hval.
    { unfold stock_value.
      destruct Hv as [[-> ->]|[[-> ->]|(H10 & H1 & Hint)]]; [done..|].
      by rewrite !decide_False. }
    rewrite create_stocks_eq, Hloop, Hval. simpl.
    by rewrite app_nil_r, <- app_assoc.
  - intros out ids' Hout. rewrite create_stocks_eq, Hloop in Hout.
    destruct (stock_value int_of_str w) as [e|v] eqn:Ev; [done|].
    destruct (create_stocks_loop int_of_str post [] ids2) as [[e|es] ids3];
      simpl in Hout; [done|].
    injection Hout as <- <-. exists v. split.
    + rewrite <- !app_assoc. rewrite lookup_app_r by lia.
      by rewrite Nat.sub_diag.
    + unfold stock_value in Ev.
      repeat case_decide; simplify_eq; split_and!; intros; try done; congruence.
  - intros e H10 H1 Hint. rewrite create_stocks_eq, Hloop.
    unfold stock_value. rewrite !decide_False by done.
    by rewrite Hint.
Qed.

Lemma create_stocks_quantization_witness :
  create_stocks_loop int_of_digits [watch_A] [] ["A"; "12"; "B"]
    = (inr [StockEntry "A" 100], ["12"; "B"]) ∧
  (code watch_12 ∈ ["12"; "B"]) ∧
  create_stocks int_of_digits ([watch_A] ++ watch_12 :: [watch_B]) ["A"; "12"; "B"]
    = (inr [StockEntry "A" 100; StockEntry "12" 25; StockEntry "B" 0], []) ∧
  (∃ v, [StockEntry "A" 100; StockEntry "12" 25; StockEntry "B" 0] !! 1%nat
          = Some (StockEntry (code watch_12) v) ∧
        (count watch_12 = ">10" → v = 100) ∧
        (count watch_12 = "1" → v = 0) ∧
        (count watch_12 ≠ ">10" → count watch_12 ≠ "1" →
         py_int int_of_digits (dict_get watch_12 "Количество") = inr v)) ∧
  (count watch_bad ≠ ">10" → count watch_bad ≠ "1" →
   py_int int_of_digits (dict_get watch_bad "Количество") = inl ValueError →
   create_stocks int_of_digits ([watch_A] ++ watch_bad :: [watch_12]) ["A"; "12"; "B"]
     = (inl ValueError, ["12"; "B"])).
Proof.
  assert (code watch_12 ∈ ["12"; "B"]) as Hin
    by (apply (bool_decide_unpack _); vm_compute; exact I).
  assert (code watch_bad ∈ ["12"; "B"]) as Hin'
    by (apply (bool_decide_unpack _); vm_compute; exact I).
  split_and!; [reflexivity|exact Hin|reflexivity| |].
  - apply (proj1 (proj2 (create_stocks_quantization int_of_digits [watch_A] watch_12
                    [watch_B] ["A"; "12"; "B"] [StockEntry "A" 100] ["12"; "B"]
                    eq_refl Hin))
             [StockEntry "A" 100; StockEntry "12" 25; StockEntry "B" 0] []).
    reflexivity.
  - apply (proj2 (proj2 (create_stocks_quantization int_of_digits [watch_A] watch_bad
                    [watch_12] ["A"; "12"; "B"] [StockEntry "A" 100] ["12"; "B"]
                    eq_refl Hin'))).
Defined.

(** C6: [price_conversion] on a text returns the digits of the part of the
    text before its first "." - of the whole text when it has no "." -
    and drops every other character; it turns "5'990.00 руб." into "5990"
    and "789 руб" into "789". *)
Theorem price_conversion_digits_before_dot :
  (∀ s, ∃ pre,
     price_conversion (PStr s)
       = inr (string_of_list_ascii
                (List.filter is_ascii_digit (list_ascii_of_string pre))) ∧
     ("."%char ∉ list_ascii_of_string pre) ∧
     (s = pre ∨ ∃ post, s = pre +:+ String "." post)) ∧
  price_conversion (PStr "5'990.00 руб.") = inr "5990" ∧
  price_conversion (PStr "789 руб") = inr "789".
Proof.
  split_and!; [|reflexivity..].
  intros s. destruct (py_split_first "." s) as (pre & rest & Hs & Hn & Hcase).
  exists pre. unfold price_conversion. rewrite Hs. simpl.
  rewrite re_sub_non_digits_filter. split_and!; [done..|].
  destruct Hcase as [[_ ->]|?]; [by left|by right].
Qed.

(** C7: for a part size of at least 1, [divide] yields parts whose
    concatenation is the list; every part has between 1 and n elements and
    every part but the last has exactly n.  [1..9] by 3 gives
    [[1,2,3],[4,5,6],[7,8,9]], and [1..7] by 3 gives [[1,2,3],[4,5,6],[7]]. *)
Theorem divide_consecutive_parts :
  (∀ (A : Type) (lst : list A) (n : Z),
     1 ≤ n →
     ∃ parts,
       divide lst n = inr parts ∧
       concat parts = lst ∧
       ∀ k p, parts !! k = Some p →
         1 ≤ Z.of_nat (length p) ≤ n ∧
         ((k + 1 < length parts)%nat → Z.of_nat (length p) = n)) ∧
  divide [1; 2; 3; 4; 5; 6; 7; 8; 9] 3 = inr [[1; 2; 3]; [4; 5; 6]; [7; 8; 9]] ∧
  divide [1; 2; 3; 4; 5; 6; 7] 3 = inr [[1; 2; 3]; [4; 5; 6]; [7]].
Proof.
  split_and!; [|reflexivity..].
  intros A lst n Hn. assert (0 < n) as Hpos by lia.
  destruct (divide lst n) as [e|parts] eqn:E.
  { rewrite divide_pos in E by done. discriminate. }
  exists parts. split_and!; [done|by eapply divide_concat|].
  intros k p Hk.
  destruct (divide_part_length lst n parts k p Hpos E Hk) as [H1 H2].
  split; [lia|]. intros Hlt. specialize (H2 Hlt). lia.
Qed.

Lemma divide_consecutive_parts_witness :
  1 ≤ 2 ∧
  ∃ parts,
    divide ["a"; "b"; "c"; "d"; "e"] 2 = inr parts ∧
    concat parts = ["a"; "b"; "c"; "d"; "e"] ∧
    ∀ k p, parts !! k = Some p →
      1 ≤ Z.of_nat (length p) ≤ 2 ∧
      ((k + 1 < length parts)%nat → Z.of_nat (length p) = 2).
Proof.
  split; [lia|].
  apply (proj1 divide_consecutive_parts string ["a"; "b"; "c"; "d"; "e"] 2). lia.
Defined.

(** C8 (two runs of the reconciler on identical inputs are to give
    identical lists): the second of two runs on the same two objects reads
    the id list as the first run left it.  Whenever both runs return, they
    give the same lists exactly when no row carries a code of the list;
    when some row does, the second stock list is shorter than the first. *)
Theorem reconcile_twice_differs (int_of_str : string → option Z)
    (ws : list watch) (ids : list string) first second ids' :
  reconcile_twice int_of_str ws ids = (inr (first, second), ids') →
  (second = first ↔ ∀ w, w ∈ ws → code w ∉ ids) ∧
  ((∃ w, w ∈ ws ∧ code w ∈ ids) → (length second.1 < length first.1)%nat).
Proof.
  unfold reconcile_twice, reconcile, bind, ret.
  destruct (create_stocks int_of_str ws ids) as [[e|s1] i1] eqn:Es1; [done|].
  pose proof (create_prices_loop_state ws [] i1) as Hp1. fold (create_prices ws) in Hp1.
  destruct (create_prices ws i1) as [[e|p1] i1'] eqn:Ep1; [done|].
  simpl in Hp1. subst i1'.
  destruct (create_stocks int_of_str ws i1) as [[e|s2] i2] eqn:Es2; [done|].
  destruct (create_prices ws i2) as [[e|p2] i2'] eqn:Ep2; [done|].
  intros [= <- <- _].
  destruct (create_stocks_lengths _ _ _ _ _ Es1) as [Hl1 Hless].
  destruct (create_stocks_lengths _ _ _ _ _ Es2) as [Hl2 _].
  assert ((∃ w, w ∈ ws ∧ code w ∈ ids) → (length s2 < length s1)%nat) as Hshort.
  { intros Hex. specialize (Hless Hex). lia. }
  split; [|exact Hshort]. split.
  - intros [= -> ->] w Hw Hin. assert (length s1 < length s1)%nat; [|lia].
    apply Hshort. eauto.
  - intros Hnone. rewrite (create_stocks_none _ _ _ Hnone) in Es1.
    injection Es1 as <- <-. rewrite (create_stocks_none _ _ _ Hnone) in Es2.
    injection Es2 as <- <-. rewrite Ep1 in Ep2. by injection Ep2 as <- _.
Qed.

Lemma reconcile_twice_differs_witness :
  reconcile_twice int_of_digits [watch_A] ["A"]
    = (inr (([StockEntry "A" 100], []), ([], [])), []) ∧
  (∃ w, w ∈ [watch_A] ∧ code w ∈ ["A"]) ∧
  (length (@nil stock_entry) < length [StockEntry "A" 100])%nat.
Proof.
  assert (∃ w, w ∈ [watch_A] ∧ code w ∈ ["A"]) as Hex.
  { exists watch_A. split; apply (bool_decide_unpack _); vm_compute; exact I. }
  split; [reflexivity|]. split; [exact Hex|].
  exact (proj2 (reconcile_twice_differs int_of_digits [watch_A] ["A"]
                  ([StockEntry "A" 100], []) ([], []) [] eq_refl) Hex).
Defined.

(** C9: every part that the drivers cut is within the limit of its
    endpoint - at most 100 stock entries, at most 900 price entries in
    [main] and at most 1000 in [upload_prices] - and so is every import
    request in the log of [main], [upload_stocks] and [upload_prices],
    whatever the marketplace answers. *)
Theorem upload_batches_within_limits (int_of_str : string → option Z)
    (srv : server) (fuel : nat) (ws : list watch) :
  (∀ (stocks : list stock_entry) parts, divide stocks 100 = inr parts →
     Forall (λ p, (length p ≤ 100)%nat) parts) ∧
  (∀ (prices : list price_entry) parts, divide prices 900 = inr parts →
     Forall (λ p, (length p ≤ 900)%nat) parts) ∧
  (∀ (prices : list price_entry) parts, divide prices 1000 = inr parts →
     Forall (λ p, (length p ≤ 1000)%nat) parts) ∧
  Forall within_limits (main int_of_str srv fuel []).2 ∧
  Forall within_limits (upload_stocks int_of_str srv fuel ws []).2 ∧
  Forall within_limits (upload_prices srv fuel ws []).2.
Proof.
  assert (∀ (A : Type) (lst : list A) (n : Z) parts, 0 < n →
            divide lst n = inr parts →
            Forall (λ p, (length p ≤ Z.to_nat n)%nat) parts) as Hparts.
  { intros A lst n parts Hn Hd.
    eapply Forall_impl; [eapply divide_part_bound; [exact Hn|exact Hd]|].
    simpl. intros p Hp. lia. }
  split_and!.
  - intros stocks parts. by apply (Hparts _ stocks 100 parts).
  - intros prices parts. by apply (Hparts _ prices 900 parts).
  - intros prices parts. by apply (Hparts _ prices 1000 parts).
  - apply (safe_main int_of_str srv fuel). constructor.
  - apply (safe_upload_stocks int_of_str srv fuel ws). constructor.
  - apply (safe_upload_prices srv fuel ws). constructor.
Qed.

Lemma upload_batches_within_limits_witness :
  divide (replicate 250 (StockEntry "A" 0)) 100
    = inr [replicate 100 (StockEntry "A" 0); replicate 100 (StockEntry "A" 0);
           replicate 50 (StockEntry "A" 0)] ∧
  Forall (λ p, (length p ≤ 100)%nat)
    [replicate 100 (StockEntry "A" 0); replicate 100 (StockEntry "A" 0);
     replicate 50 (StockEntry "A" 0)] ∧
  main int_of_digits sample_server 5 []
    = (Done tt,
       [Sent (ProductList ""); Sent (ProductList "cursor-1"); Sent Ostatki;
        Sent (ImportStocks [StockEntry "A" 100; StockEntry "B" 0; StockEntry "C" 0])]) ∧
  Forall within_limits (main int_of_digits sample_server 5 []).2.
Proof.
  assert (divide (replicate 250 (StockEntry "A" 0)) 100
          = inr [replicate 100 (StockEntry "A" 0); replicate 100 (StockEntry "A" 0);
                 replicate 50 (StockEntry "A" 0)]) as Hd by (vm_compute; reflexivity).
  split_and!; [exact Hd| |vm_compute; reflexivity|].
  - exact (proj1 (upload_batches_within_limits int_of_digits sample_server 5 [])
             (replicate 250 (StockEntry "A" 0)) _ Hd).
  - apply (upload_batches_within_limits int_of_digits sample_server 5 []).
Defined.

(** C10: when the replies of the marketplace are such that some reply
    reports a total equal to the number of products fetched up to it, the
    loop of [get_offer_ids] leaves at the first such reply: with a budget
    above its index the fetch returns the offer ids of the products fetched
    so far, in order, having sent one request per reply, each with the
    cursor of the reply before. *)
Theorem get_offer_ids_terminates (srv : server) (pages : nat → page) (n : nat) :
  (∀ k, (k ≤ n)%nat → product_list srv k (cursor pages k) = inr (pages k)) →
  complete pages n →
  ∃ m, (m ≤ n)%nat ∧
       complete pages m ∧
       (∀ j, (j < m)%nat → ¬ complete pages j) ∧
       ∀ fuel, (m < fuel)%nat →
         get_offer_ids srv fuel []
           = (Done (map offer_id (fetched pages (S m))), requests pages (S m)).
Proof.
  intros Hrep Hn.
  destruct (first_complete pages n Hn) as (m & Hm & Hc & Hleast).
  exists m. split_and!; [done..|].
  intros fuel Hfuel. apply get_offer_ids_run; [|done..].
  intros i Hi. apply Hrep. lia.
Qed.

Lemma get_offer_ids_terminates_witness :
  (∀ k, (k ≤ 1)%nat →
     product_list sample_server k (cursor sample_pages k) = inr (sample_pages k)) ∧
  complete sample_pages 1 ∧
  get_offer_ids sample_server 2 []
    = (Done ["A"; "B"; "C"], [Sent (ProductList ""); Sent (ProductList "cursor-1")]) ∧
  ∃ m, (m ≤ 1)%nat ∧
       complete sample_pages m ∧
       (∀ j, (j < m)%nat → ¬ complete sample_pages j) ∧
       ∀ fuel, (m < fuel)%nat →
         get_offer_ids sample_server fuel []
           = (Done (map offer_id (fetched sample_pages (S m))),
              requests sample_pages (S m)).
Proof.
  assert (∀ k, (k ≤ 1)%nat →
            product_list sample_server k (cursor sample_pages k)
            = inr (sample_pages k)) as Hrep by (intros k _; reflexivity).
  assert (complete sample_pages 1) as Hc by reflexivity.
  split_and!; [exact Hrep|exact Hc|reflexivity|].
  exact (get_offer_ids_terminates sample_server sample_pages 1 Hrep Hc).
Defined.

(** * Further properties of the program *)

(** ** The reconciler *)

(** The price entry that [create_prices] builds for a row. *)
Definition price_entry_of (w : watch) (e : price_entry) : Prop :=
  ∃ p, price_conversion (dict_get w "Цена") = inr p ∧
       e = PriceEntry "UNKNOWN" "RUB" (code w) "0" p.

Lemma create_prices_loop_entries ws ids es ids' :
  create_prices_loop ws [] ids = (inr es, ids') →
  Forall2 price_entry_of (filter (λ w, code w ∈ ids) ws) es.
Proof.
  revert es. induction ws as [|w ws IH]; intros es.
  - simpl. unfold ret. intros [= <- _]. constructor.
  - rewrite create_prices_loop_cons. case_bool_decide as Hin.
    + destruct (price_conversion _) as [e|p] eqn:Ep; [done|].
      rewrite create_prices_loop_acc.
      destruct (create_prices_loop ws [] ids) as [[e|es1] ids1] eqn:E1; simpl; [done|].
      intros [= <- <-]. rewrite filter_cons_True by done.
      constructor; [by exists p|by apply IH].
    + intros H. rewrite filter_cons_False by done. by apply IH.
Qed.

Lemma price_conversion_exn v e :
  price_conversion v = inl e → e = AttributeError ∧ ∀ s, v ≠ PStr s.
Proof. destruct v; simpl; [|done|]; by intros [= <-]. Qed.

Lemma create_prices_loop_raises ws ids e ids' :
  create_prices_loop ws [] ids = (inl e, ids') →
  e = AttributeError ∧
  ∃ w, w ∈ ws ∧ code w ∈ ids ∧ ∀ s, dict_get w "Цена" ≠ PStr s.
Proof.
  revert ids'. induction ws as [|w ws IH]; intros ids'; [done|].
  rewrite create_prices_loop_cons. case_bool_decide as Hin.
  - destruct (price_conversion _) as [e'|p] eqn:Ep.
    + intros [= -> _]. apply price_conversion_exn in Ep as [-> Hn].
      split; [done|]. exists w. split; [by left|]. split; done.
    + rewrite create_prices_loop_acc.
      destruct (create_prices_loop ws [] ids) as [[e'|es1] ids1] eqn:E1; simpl; [|done].
      intros [= -> _]. destruct (IH _ eq_refl) as (-> & w' & Hw' & Hrest).
      split; [done|]. exists w'. split; [by right|done].
  - intros H. destruct (IH _ H) as (-> & w' & Hw' & Hrest).
    split; [done|]. exists w'. split; [by right|done].
Qed.

Lemma create_prices_loop_returns ws ids :
  (∀ w, w ∈ ws → code w ∈ ids → ∃ s, dict_get w "Цена" = PStr s) →
  ∃ es, create_prices_loop ws [] ids = (inr es, ids).
Proof.
  intros Hall. destruct (create_prices_loop ws [] ids) as [[e|es] ids'] eqn:E.
  - destruct (create_prices_loop_raises _ _ _ _ E) as (_ & w & Hw & Hin & Hn).
    destruct (Hall w Hw Hin) as [s Hs]. by destruct (Hn s).
  - pose proof (create_prices_loop_state ws [] ids) as Hst. rewrite E in Hst.
    simpl in Hst. subst. eauto.
Qed.

Lemma create_prices_loop_same_elems ws prices ids1 ids2 :
  (∀ x, x ∈ ids1 ↔ x ∈ ids2) →
  (create_prices_loop ws prices ids1).1 = (create_prices_loop ws prices ids2).1.
Proof.
  intros Hsame. revert prices. induction ws as [|w ws IH]; intros prices; [done|].
  rewrite !create_prices_loop_cons.
  rewrite (bool_decide_ext (code w ∈ ids1) (code w ∈ ids2)) by apply Hsame.
  case_bool_decide; [|apply IH]. destruct (price_conversion _); [done|apply IH].
Qed.

(** X1: [create_prices] only reads the id list: whatever it returns or
    raises, the list is afterwards what it was before. *)
Theorem create_prices_keeps_offer_ids (ws : list watch) (ids : list string) :
  (create_prices ws ids).2 = ids.
Proof. apply create_prices_loop_state. Qed.

(** X2: the result of [create_prices] depends on the id list only through
    which ids it holds: two lists with the same elements, in any order and
    with any repetitions, give the same price list or the same exception. *)
Theorem create_prices_depends_on_membership (ws : list watch) (ids1 ids2 : list string) :
  (∀ x, x ∈ ids1 ↔ x ∈ ids2) →
  (create_prices ws ids1).1 = (create_prices ws ids2).1.
Proof. apply create_prices_loop_same_elems. Qed.

Lemma create_prices_depends_on_membership_witness :
  (∀ x, x ∈ ["A"; "B"] ↔ x ∈ ["B"; "A"; "B"]) ∧
  (create_prices [watch_A; watch_X; watch_B] ["A"; "B"]).1
    = (create_prices [watch_A; watch_X; watch_B] ["B"; "A"; "B"]).1.
Proof.
  assert (∀ x, x ∈ ["A"; "B"] ↔ x ∈ ["B"; "A"; "B"]) as Hsame.
  { intros x. rewrite !elem_of_cons, !elem_of_nil. tauto. }
  split; [exact Hsame|].
  exact (create_prices_depends_on_membership [watch_A; watch_X; watch_B]
           ["A"; "B"] ["B"; "A"; "B"] Hsame).
Defined.

(** X3: when [create_stocks] returns, the offer ids of its output are the
    ids of the list it was given, each as often as the list held it, in
    another order: the output has one entry per id of the list. *)
Theorem create_stocks_covers_offer_ids (int_of_str : string → option Z)
    (ws : list watch) (ids : list string) out ids' :
  create_stocks int_of_str ws ids = (inr out, ids') →
  map stock_offer_id out ≡ₚ ids ∧ length out = length ids.
Proof.
  intros Hst. rewrite create_stocks_eq in Hst.
  destruct (create_stocks_loop int_of_str ws [] ids) as [[e|es] ids1] eqn:E; [done|].
  injection Hst as <- <-.
  assert (map stock_offer_id (es ++ map (λ id, StockEntry id 0) ids1) ≡ₚ ids) as Hp.
  { rewrite map_app, map_map. simpl. rewrite map_id.
    by eapply create_stocks_loop_Permutation. }
  split; [done|]. apply Permutation_length in Hp. by rewrite length_map in Hp.
Qed.

Lemma create_stocks_covers_offer_ids_witness :
  create_stocks int_of_digits [watch_B; watch_X; watch_A; watch_A2] ["A"; "B"; "A"; "C"]
    = (inr [StockEntry "B" 0; StockEntry "A" 100; StockEntry "A" 7; StockEntry "C" 0],
       ["C"]) ∧
  map stock_offer_id
      [StockEntry "B" 0; StockEntry "A" 100; StockEntry "A" 7; StockEntry "C" 0]
    ≡ₚ ["A"; "B"; "A"; "C"] ∧
  length [StockEntry "B" 0; StockEntry "A" 100; StockEntry "A" 7; StockEntry "C" 0]
    = length ["A"; "B"; "A"; "C"].
Proof.
  split; [reflexivity|].
  apply (create_stocks_covers_offer_ids int_of_digits
           [watch_B; watch_X; watch_A; watch_A2] ["A"; "B"; "A"; "C"] _ ["C"]).
  reflexivity.
Defined.

(** X4: on an id list without repeats, when [create_stocks] returns, the
    list is left holding exactly the ids that are the code of no row, in
    their order, and no two entries of the output carry the same id. *)
Theorem create_stocks_on_distinct_ids (int_of_str : string → option Z)
    (ws : list watch) (ids : list string) out ids' :
  NoDup ids →
  create_stocks int_of_str ws ids = (inr out, ids') →
  ids' = filter (λ i, i ∉ map (λ w, code w) ws) ids ∧
  NoDup (map stock_offer_id out).
Proof.
  intros Hnd Hst. split.
  - rewrite create_stocks_eq in Hst.
    destruct (create_stocks_loop int_of_str ws [] ids) as [[e|es] ids1] eqn:E; [done|].
    injection Hst as _ <-. apply create_stocks_loop_state in E as ->.
    by apply remaining_NoDup_filter.
  - assert (map stock_offer_id out ≡ₚ ids) as Hp.
    { rewrite create_stocks_eq in Hst.
      destruct (create_stocks_loop int_of_str ws [] ids) as [[e|es] ids1] eqn:E; [done|].
      injection Hst as <- <-. rewrite map_app, map_map. simpl. rewrite map_id.
      by eapply create_stocks_loop_Permutation. }
    by rewrite Hp.
Qed.

Lemma create_stocks_on_distinct_ids_witness :
  NoDup ["C"; "A"; "D"; "B"] ∧
  create_stocks int_of_digits [watch_B; watch_X; watch_A; watch_A2] ["C"; "A"; "D"; "B"]
    = (inr [StockEntry "B" 0; StockEntry "A" 100; StockEntry "C" 0; StockEntry "D" 0],
       ["C"; "D"]) ∧
  ["C"; "D"]
    = filter (λ i, i ∉ map (λ w, code w) [watch_B; watch_X; watch_A; watch_A2])
        ["C"; "A"; "D"; "B"] ∧
  NoDup (map stock_offer_id
           [StockEntry "B" 0; StockEntry "A" 100; StockEntry "C" 0; StockEntry "D" 0]).
Proof.
  assert (NoDup ["C"; "A"; "D"; "B"]) as Hnd
    by (apply (bool_decide_unpack _); vm_compute; exact I).
  split; [exact Hnd|]. split; [reflexivity|].
  apply (create_stocks_on_distinct_ids int_of_digits
           [watch_B; watch_X; watch_A; watch_A2] ["C"; "A"; "D"; "B"] _ _ Hnd).
  reflexivity.
Defined.

(** X5: [create_stocks] raises only what [int] raises on the quantity of a
    row whose code is in the list and whose quantity is neither ">10" nor
    "1" - a [ValueError] or a [TypeError]; [list.remove] never raises there.
    The list then holds ids of the list it was, in their order. *)
Theorem create_stocks_raises_from_int (int_of_str : string → option Z)
    (ws : list watch) (ids : list string) e ids' :
  create_stocks int_of_str ws ids = (inl e, ids') →
  (e = ValueError ∨ e = TypeError) ∧
  sublist ids' ids ∧
  ∃ w, w ∈ ws ∧ code w ∈ ids ∧ count w ≠ ">10" ∧ count w ≠ "1" ∧
       py_int int_of_str (dict_get w "Количество") = inl e.
Proof.
  intros Hst. rewrite create_stocks_eq in Hst.
  pose proof (create_stocks_loop_shrinks int_of_str ws [] ids) as Hsub.
  destruct (create_stocks_loop int_of_str ws [] ids) as [[e'|es] ids1] eqn:E; [|done].
  injection Hst as -> <-.
  destruct (create_stocks_loop_raises _ _ _ _ _ E) as (w & Hw & Hin & H10 & H1 & Hint).
  split; [by eapply py_int_exn|]. split; [done|]. exists w. done.
Qed.

Lemma create_stocks_raises_from_int_witness :
  create_stocks int_of_digits [watch_A; watch_bad; watch_12] ["A"; "12"; "B"]
    = (inl ValueError, ["12"; "B"]) ∧
  (ValueError = ValueError ∨ ValueError = TypeError) ∧
  sublist ["12"; "B"] ["A"; "12"; "B"] ∧
  ∃ w, w ∈ [watch_A; watch_bad; watch_12] ∧ code w ∈ ["A"; "12"; "B"] ∧
       count w ≠ ">10" ∧ count w ≠ "1" ∧
       py_int int_of_digits (dict_get w "Количество") = inl ValueError.
Proof.
  split; [reflexivity|].
  apply (create_stocks_raises_from_int int_of_digits [watch_A; watch_bad; watch_12]
           ["A"; "12"; "B"]).
  reflexivity.
Defined.

(** X6: when [create_prices] returns, its output has one entry for each
    row whose code is in the id list, in row order: the entry carries the
    row's code, the price that [price_conversion] makes of the row's price,
    and the fixed values "UNKNOWN", "RUB" and "0". *)
Theorem create_prices_entries (ws : list watch) (ids : list string) out ids' :
  create_prices ws ids = (inr out, ids') →
  Forall2 price_entry_of (filter (λ w, code w ∈ ids) ws) out.
Proof. apply create_prices_loop_entries. Qed.

Lemma create_prices_entries_witness :
  create_prices [watch_A; watch_X; watch_B] ["B"; "A"]
    = (inr [PriceEntry "UNKNOWN" "RUB" "A" "0" "5990";
            PriceEntry "UNKNOWN" "RUB" "B" "0" "789"], ["B"; "A"]) ∧
  Forall2 price_entry_of
    (filter (λ w, code w ∈ ["B"; "A"]) [watch_A; watch_X; watch_B])
    [PriceEntry "UNKNOWN" "RUB" "A" "0" "5990"; PriceEntry "UNKNOWN" "RUB" "B" "0" "789"].
Proof.
  split; [reflexivity|].
  apply (create_prices_entries [watch_A; watch_X; watch_B] ["B"; "A"] _ ["B"; "A"]).
  reflexivity.
Defined.

(** X7: [create_prices] returns when the price of every row whose code is
    in the id list is a text; the only exception it raises is the
    [AttributeError] of a row whose code is in the list and whose price is
    no text (a number, or no price at all). *)
Theorem create_prices_raises_on_non_text (ws : list watch) (ids : list string) :
  ((∀ w, w ∈ ws → code w ∈ ids → ∃ s, dict_get w "Цена" = PStr s) →
   ∃ out, create_prices ws ids = (inr out, ids)) ∧
  (∀ e ids', create_prices ws ids = (inl e, ids') →
     e = AttributeError ∧
     ∃ w, w ∈ ws ∧ code w ∈ ids ∧ ∀ s, dict_get w "Цена" ≠ PStr s).
Proof.
  split.
  - apply create_prices_loop_returns.
  - intros e ids'. apply create_prices_loop_raises.
Qed.

Lemma create_prices_raises_on_non_text_witness :
  create_prices [watch_A; watch_X; watch_B] ["A"; "X"] = (inl AttributeError, ["A"; "X"]) ∧
  AttributeError = AttributeError ∧
  ∃ w, w ∈ [watch_A; watch_X; watch_B] ∧ code w ∈ ["A"; "X"] ∧
       ∀ s, dict_get w "Цена" ≠ PStr s.
Proof.
  split; [reflexivity|].
  apply (proj2 (create_prices_raises_on_non_text [watch_A; watch_X; watch_B] ["A"; "X"])
           AttributeError ["A"; "X"]).
  reflexivity.
Defined.

(** X8: when no row carries a code of the id list - an empty remnant list
    among others - [create_stocks] reads no quantity, returns a zero entry
    for every id of the list, in list order, and leaves the list as it
    was; [create_prices] reads no price and returns the empty list. *)
Theorem reconcilers_without_match (int_of_str : string → option Z)
    (ws : list watch) (ids : list string) :
  (∀ w, w ∈ ws → code w ∉ ids) →
  create_stocks int_of_str ws ids = (inr (map (λ id, StockEntry id 0) ids), ids) ∧
  create_prices ws ids = (inr [], ids).
Proof.
  intros Hnone. split; [|by apply create_prices_loop_none].
  rewrite create_stocks_eq.
  assert (create_stocks_loop int_of_str ws [] ids = (inr [], ids)) as ->; [|done].
  induction ws as [|w ws IH]; [done|].
  rewrite create_stocks_loop_skip by (apply Hnone; by left).
  apply IH. intros w' Hw'. apply Hnone. by right.
Qed.

Lemma reconcilers_without_match_witness :
  (∀ w, w ∈ [watch_X] → code w ∉ ["A"; "B"]) ∧
  create_stocks int_of_digits [watch_X] ["A"; "B"]
    = (inr [StockEntry "A" 0; StockEntry "B" 0], ["A"; "B"]) ∧
  create_prices [watch_X] ["A"; "B"] = (inr [], ["A"; "B"]).
Proof.
  assert (∀ w, w ∈ [watch_X] → code w ∉ ["A"; "B"]) as Hnone.
  { intros w Hw. apply list_elem_of_singleton in Hw as ->.
    apply (bool_decide_unpack _). vm_compute. exact I. }
  split; [exact Hnone|].
  exact (reconcilers_without_match int_of_digits [watch_X] ["A"; "B"] Hnone).
Defined.

(** X9: a row whose code the earlier rows have already used up - the code
    occurs in the id list no more often than among the rows before it -
    changes nothing in what [create_stocks] returns or raises: of the rows
    that share a code, the first ones count. *)
Theorem create_stocks_skips_used_code (int_of_str : string → option Z)
    (pre : list watch) (w : watch) (post : list watch) (ids : list string) :
  (occurrences (code w) ids ≤ occurrences (code w) (map (λ w, code w) pre))%nat →
  create_stocks int_of_str (pre ++ w :: post) ids
  = create_stocks int_of_str (pre ++ post) ids.
Proof.
  intros Hocc. rewrite !create_stocks_eq, !create_stocks_loop_app.
  destruct (create_stocks_loop int_of_str pre [] ids) as [[e|es] ids1] eqn:E; [done|].
  apply create_stocks_loop_state in E as ->.
  rewrite create_stocks_loop_skip; [done|].
  apply occurrences_zero. rewrite remaining_occurrences. lia.
Qed.

Lemma create_stocks_skips_used_code_witness :
  (occurrences (code watch_A2) ["A"; "B"; "C"]
   ≤ occurrences (code watch_A2) (map (λ w, code w) [watch_A]))%nat ∧
  create_stocks int_of_digits ([watch_A] ++ watch_A2 :: [watch_B]) ["A"; "B"; "C"]
    = create_stocks int_of_digits ([watch_A] ++ [watch_B]) ["A"; "B"; "C"].
Proof.
  assert (occurrences (code watch_A2) ["A"; "B"; "C"]
          ≤ occurrences (code watch_A2) (map (λ w, code w) [watch_A]))%nat as Hocc
    by (vm_compute; lia).
  split; [exact Hocc|].
  exact (create_stocks_skips_used_code int_of_digits [watch_A] watch_A2 [watch_B]
           ["A"; "B"; "C"] Hocc).
Defined.

(** ** Price normalisation *)

Lemma py_split_head_cons sep c s :
  default EmptyString (head (py_split sep (String c s))) =
  if decide (c = sep) then EmptyString
  else String c (default EmptyString (head (py_split sep s))).
Proof. simpl. case_decide; [done|]. by destruct (py_split sep s). Qed.

Lemma py_split_head_app sep s t :
  default EmptyString (head (py_split sep (s +:+ String sep t))) =
  default EmptyString (head (py_split sep s)).
Proof.
  induction s as [|c s IH].
  - simpl. by rewrite decide_True.
  - change (String c s +:+ String sep t) with (String c (s +:+ String sep t)).
    rewrite !py_split_head_cons, IH. done.
Qed.

Lemma py_split_head_no_sep sep s :
  sep ∉ list_ascii_of_string s →
  default EmptyString (head (py_split sep s)) = s.
Proof.
  induction s as [|c s IH]; [done|]. simpl list_ascii_of_string.
  intros [Hne Hn]%not_elem_of_cons.
  rewrite py_split_head_cons, decide_False by congruence. by rewrite IH.
Qed.

Lemma re_sub_non_digits_all_digits s :
  Forall (λ c, is_ascii_digit c = true) (list_ascii_of_string (re_sub_non_digits s)).
Proof.
  induction s as [|c s IH]; simpl; [constructor|].
  destruct (is_ascii_digit c) eqn:Ec; [|done]. simpl. by constructor.
Qed.

Lemma re_sub_non_digits_fixed s :
  Forall (λ c, is_ascii_digit c = true) (list_ascii_of_string s) →
  re_sub_non_digits s = s.
Proof.
  induction s as [|c s IH]; [done|]. simpl.
  intros [Hc Hs]%Forall_cons. by rewrite Hc, IH.
Qed.

(** X10: the price that [price_conversion] makes of a text consists of
    ASCII digits only, and [price_conversion] leaves such a price as it
    is. *)
Theorem price_conversion_digits_only (s : string) :
  ∃ d, price_conversion (PStr s) = inr d ∧
       Forall (λ c, is_ascii_digit c = true) (list_ascii_of_string d) ∧
       price_conversion (PStr d) = inr d.
Proof.
  eexists. split; [reflexivity|]. split; [apply re_sub_non_digits_all_digits|].
  simpl. f_equal.
  set (d := re_sub_non_digits (default EmptyString (head (py_split "." s)))).
  assert (Forall (λ c, is_ascii_digit c = true) (list_ascii_of_string d)) as Hd
    by apply re_sub_non_digits_all_digits.
  rewrite py_split_head_no_sep; [by apply re_sub_non_digits_fixed|].
  intros Hin. rewrite Forall_forall in Hd. by specialize (Hd _ Hin).
Qed.

(** X11: [price_conversion] drops whatever follows a "." in the text: the
    text with a "." and anything behind it gives the price of the text
    alone (the fraction is cut off, not rounded). *)
Theorem price_conversion_ignores_after_dot (s t : string) :
  price_conversion (PStr (s +:+ String "." t)) = price_conversion (PStr s).
Proof. simpl. by rewrite py_split_head_app. Qed.

(** ** Batching *)

Lemma part_count_pos len n :
  0 < n → 0 < len →
  part_count len n = S (part_count (len - n) n).
Proof.
  intros Hn Hlen. unfold part_count. rewrite decide_True by done.
  case_decide as Hrest.
  - replace (len - 1) with (len - n - 1 + 1 * n) by lia.
    rewrite Z.div_add by lia.
    assert (0 ≤ (len - n - 1) / n) by (apply Z.div_pos; lia). lia.
  - rewrite Z.div_small by lia. done.
Qed.

Lemma divide_nil {A} (n : Z) : 0 < n → divide (@nil A) n = inr [].
Proof. intros Hn. by rewrite divide_pos. Qed.

Lemma divide_cons {A} (lst : list A) (n : Z) :
  0 < n → lst ≠ [] →
  divide lst n =
  inr (take (Z.to_nat n) lst
       :: parts_of (drop (Z.to_nat n) lst) (Z.to_nat n)
            (part_count (Z.of_nat (length (drop (Z.to_nat n) lst))) n)).
Proof.
  intros Hn Hne. rewrite divide_pos by done.
  assert (0 < Z.of_nat (length lst)) as Hlen by (destruct lst; [done|simpl; lia]).
  rewrite part_count_pos, parts_of_S by done. do 3 f_equal.
  rewrite length_drop.
  destruct (decide (Z.to_nat n ≤ length lst)%nat).
  - f_equal. lia.
  - unfold part_count. rewrite !decide_False by lia. done.
Qed.

(** X12: a part size of 0 makes [divide] raise the [ValueError] of
    [range], whatever the list; a negative part size makes it yield no
    part at all, so that the elements of the list are silently left out. *)
Theorem divide_bad_size {A} (lst : list A) (n : Z) :
  divide lst 0 = inl ValueError ∧
  (n < 0 → divide lst n = inr []).
Proof.
  split; [done|]. intros Hn. unfold divide, py_range.
  rewrite decide_False by lia. rewrite (decide_False (P := 0 < n)) by lia.
  rewrite (decide_False (P := Z.of_nat (length lst) < 0)) by lia. done.
Qed.

Lemma divide_bad_size_witness :
  -3 < 0 ∧ divide ["a"; "b"; "c"] (-3) = inr [].
Proof.
  split; [lia|].
  apply (proj2 (divide_bad_size ["a"; "b"; "c"] (-3))). lia.
Defined.

(** X13: for a part size n of at least 1, [divide] yields the list length
    divided by n, rounded up, many parts, and part number k (from 0) is
    the slice of at most n elements that starts at index k * n. *)
Theorem divide_part_positions {A} (lst : list A) (n : Z) :
  1 ≤ n →
  ∃ parts,
    divide lst n = inr parts ∧
    Z.of_nat (length parts) = (Z.of_nat (length lst) + n - 1) / n ∧
    ∀ k, (k < length parts)%nat →
      parts !! k = Some (take (Z.to_nat n) (drop (k * Z.to_nat n) lst)).
Proof.
  intros Hn. rewrite divide_pos by lia. eexists. split; [done|].
  unfold parts_of. rewrite length_map, length_seq. split.
  - unfold part_count. case_decide as Hlen.
    + replace (Z.of_nat (length lst) + n - 1)
        with (Z.of_nat (length lst) - 1 + 1 * n) by lia.
      rewrite Z.div_add by lia.
      assert (0 ≤ (Z.of_nat (length lst) - 1) / n) by (apply Z.div_pos; lia). lia.
    + replace (Z.of_nat (length lst)) with 0 by lia.
      rewrite Z.div_small by lia. done.
  - intros k Hk. rewrite list_lookup_fmap, lookup_seq_lt by done. done.
Qed.

Lemma divide_part_positions_witness :
  1 ≤ 3 ∧
  ∃ parts,
    divide [1; 2; 3; 4; 5; 6; 7] 3 = inr parts ∧
    Z.of_nat (length parts) = (Z.of_nat (length [1; 2; 3; 4; 5; 6; 7]) + 3 - 1) / 3 ∧
    ∀ k, (k < length parts)%nat →
      parts !! k = Some (take (Z.to_nat 3) (drop (k * Z.to_nat 3) [1; 2; 3; 4; 5; 6; 7])).
Proof.
  split; [lia|].
  apply (divide_part_positions [1; 2; 3; 4; 5; 6; 7] 3). lia.
Defined.

(** X14: for a part size n of at least 1, [divide] yields nothing for the
    empty list, and for any other list the first n elements (or all, when
    there are fewer) followed by the parts of the rest of the list. *)
Theorem divide_first_part {A} (lst : list A) (n : Z) :
  1 ≤ n →
  divide (@nil A) n = inr [] ∧
  (lst ≠ [] →
   ∃ rest, divide (drop (Z.to_nat n) lst) n = inr rest ∧
           divide lst n = inr (take (Z.to_nat n) lst :: rest)).
Proof.
  intros Hn. split; [apply divide_nil; lia|]. intros Hne.
  eexists. split; [apply divide_pos; lia|]. apply divide_cons; [lia|done].
Qed.

Lemma divide_first_part_witness :
  1 ≤ 2 ∧
  divide (@nil string) 2 = inr [] ∧
  (["a"; "b"; "c"] ≠ [] →
   ∃ rest, divide (drop (Z.to_nat 2) ["a"; "b"; "c"]) 2 = inr rest ∧
           divide ["a"; "b"; "c"] 2 = inr (take (Z.to_nat 2) ["a"; "b"; "c"] :: rest)).
Proof.
  split; [lia|].
  apply (divide_first_part ["a"; "b"; "c"] 2). lia.
Defined.

(** X15: [divide] undoes a concatenation: parts of which each has between
    1 and n elements and each but the last exactly n, put together into one
    list and divided by n, come back as they were. *)
Theorem divide_concat_parts {A} (parts : list (list A)) (n : Z) :
  1 ≤ n →
  (∀ k p, parts !! k = Some p →
     1 ≤ Z.of_nat (length p) ≤ n ∧
     ((k + 1 < length parts)%nat → Z.of_nat (length p) = n)) →
  divide (concat parts) n = inr parts.
Proof.
  intros Hn. induction parts as [|p parts IH]; intros Hwf.
  - apply divide_nil. lia.
  - destruct (Hwf 0%nat p eq_refl) as [Hp Hfull].
    assert (∀ k q, parts !! k = Some q →
              1 ≤ Z.of_nat (length q) ≤ n ∧
              ((k + 1 < length parts)%nat → Z.of_nat (length q) = n)) as Hwf'.
    { intros k q Hq. destruct (Hwf (S k) q Hq) as [H1 H2].
      split; [done|]. intros Hk. apply H2. simpl. lia. }
    specialize (IH Hwf'). rewrite divide_pos in IH by lia. injection IH as IH.
    change (concat (p :: parts)) with (p ++ concat parts).
    assert (p ++ concat parts ≠ []) as Hne by (destruct p; [simpl in Hp; lia|done]).
    rewrite divide_cons by (done || lia). do 2 f_equal.
    + destruct parts as [|q parts].
      * simpl. rewrite app_nil_r. apply take_ge. lia.
      * assert (Z.of_nat (length p) = n) as Hlen by (apply Hfull; simpl; lia).
        apply take_app_length'. lia.
    + assert (drop (Z.to_nat n) (p ++ concat parts) = concat parts) as ->; [|done].
      destruct parts as [|q parts].
      * simpl. rewrite app_nil_r. apply drop_ge. lia.
      * assert (Z.of_nat (length p) = n) as Hlen by (apply Hfull; simpl; lia).
        apply drop_app_length'. lia.
Qed.

Lemma divide_concat_parts_witness :
  1 ≤ 2 ∧
  (∀ k p, [["a"; "b"]; ["c"; "d"]; ["e"]] !! k = Some p →
     1 ≤ Z.of_nat (length p) ≤ 2 ∧
     ((k + 1 < length [["a"; "b"]; ["c"; "d"]; ["e"]])%nat → Z.of_nat (length p) = 2)) ∧
  divide (concat [["a"; "b"]; ["c"; "d"]; ["e"]]) 2 = inr [["a"; "b"]; ["c"; "d"]; ["e"]].
Proof.
  assert (∀ k p, [["a"; "b"]; ["c"; "d"]; ["e"]] !! k = Some p →
     1 ≤ Z.of_nat (length p) ≤ 2 ∧
     ((k + 1 < length [["a"; "b"]; ["c"; "d"]; ["e"]])%nat → Z.of_nat (length p) = 2))
    as Hwf.
  { intros [|[|[|k]]] p Hp; simpl in Hp; [injection Hp as <-..|discriminate];
      simpl; (split; [lia|]); intros; lia. }
  split; [lia|]. split; [exact Hwf|].
  apply (divide_concat_parts [["a"; "b"]; ["c"; "d"]; ["e"]] 2); [lia|exact Hwf].
Defined.

(** ** The paginated fetch *)

Section FetchMore.

Variable srv : server.
Variable pages : nat → page.

Lemma get_offer_ids_loop_spins_log fuel j :
  (∀ i, product_list srv i (cursor pages i) = inr (pages i)) →
  (∀ i, ¬ complete pages i) →
  get_offer_ids_loop srv fuel (cursor pages j) (fetched pages j) (requests pages j) =
  (Running, requests pages (j + fuel)).
Proof.
  intros Hrep Hnot. revert j. induction fuel as [|fuel IH]; intros j.
  - by rewrite Nat.add_0_r.
  - simpl. unfold io_bind, get_product_list, send.
    rewrite length_requests, Hrep, <- requests_S, <- fetched_S.
    rewrite decide_False by apply Hnot.
    etrans; [apply (IH (S j))|]. do 2 f_equal. lia.
Qed.

Lemma get_offer_ids_loop_fails d j fuel e :
  (∀ i, (j ≤ i < j + d)%nat → product_list srv i (cursor pages i) = inr (pages i)) →
  (∀ i, (j ≤ i < j + d)%nat → ¬ complete pages i) →
  product_list srv (j + d) (cursor pages (j + d)) = inl e →
  (d < fuel)%nat →
  get_offer_ids_loop srv fuel (cursor pages j) (fetched pages j) (requests pages j) =
  (Raised e, requests pages (S (j + d))).
Proof.
  revert j fuel. induction d as [|d IH]; intros j fuel Hrep Hnot He Hfuel;
    (destruct fuel as [|fuel]; [lia|]); simpl;
    unfold io_bind, get_product_list, send; rewrite length_requests.
  - rewrite Nat.add_0_r in *. by rewrite He, <- requests_S.
  - rewrite (Hrep j) by lia. rewrite <- requests_S, <- fetched_S.
    rewrite decide_False by (apply Hnot; lia).
    replace (j + S d)%nat with (S j + d)%nat in * by lia.
    apply (IH (S j)); [intros; apply Hrep; lia|intros; apply Hnot; lia|done|lia].
Qed.

End FetchMore.

Lemma get_offer_ids_loop_done (srv : server) fuel c pl log0 pl' log :
  get_offer_ids_loop srv fuel c pl log0 = (Done pl', log) →
  ∃ cs c' p,
    log = log0 ++ map (λ c, Sent (ProductList c)) (c :: cs) ∧
    last (c :: cs) = Some c' ∧
    product_list srv (length log0 + length cs) c' = inr p ∧
    total p = Z.of_nat (length pl').
Proof.
  revert c pl log0. induction fuel as [|fuel IH]; intros c pl log0; [done|].
  simpl. unfold io_bind, get_product_list, send.
  destruct (product_list srv (length log0) c) as [e|p] eqn:Ep; [done|].
  case_decide as Htot.
  - unfold io_ret. intros [= <- <-]. exists [], c, p.
    rewrite Nat.add_0_r. done.
  - intros Hrun. destruct (IH _ _ _ Hrun) as (cs & c' & p' & -> & Hlast & Hp' & Htot').
    exists (page_last_id p :: cs), c', p'. split_and!; [|done| |done].
    + by rewrite <- app_assoc.
    + rewrite length_app in Hp'. simpl in *.
      by replace (length log0 + S (length cs))%nat
        with (length log0 + 1 + length cs)%nat by lia.
Qed.

Lemma short_pages_fetched k :
  fetched short_pages (S k) = [Product "A"; Product "B"].
Proof.
  induction k as [|k IH]; [done|]. rewrite fetched_S, IH. done.
Qed.

Lemma short_pages_never_complete k : ¬ complete short_pages k.
Proof.
  unfold complete. rewrite short_pages_fetched. by destruct k.
Qed.

(** X16: when every reply comes and none of them reports a total equal to
    the number of products fetched up to it, [get_offer_ids] never
    returns: whatever the budget of iterations, it is still in its loop
    after having sent one request per iteration. *)
Theorem get_offer_ids_never_complete (srv : server) (pages : nat → page) (fuel : nat) :
  (∀ k, product_list srv k (cursor pages k) = inr (pages k)) →
  (∀ k, ¬ complete pages k) →
  get_offer_ids srv fuel [] = (Running, requests pages fuel).
Proof.
  intros Hrep Hnot. unfold get_offer_ids, io_bind.
  assert (get_offer_ids_loop srv fuel "" [] [] = (Running, requests pages fuel)) as ->;
    [|done].
  apply (get_offer_ids_loop_spins_log srv pages fuel 0 Hrep Hnot).
Qed.

Lemma get_offer_ids_never_complete_witness :
  (∀ k, product_list short_server k (cursor short_pages k) = inr (short_pages k)) ∧
  (∀ k, ¬ complete short_pages k) ∧
  get_offer_ids short_server 3 []
    = (Running,
       [Sent (ProductList ""); Sent (ProductList "cursor-1");
        Sent (ProductList "cursor-1")]).
Proof.
  assert (∀ k, product_list short_server k (cursor short_pages k)
               = inr (short_pages k)) as Hrep by (intros k; reflexivity).
  split; [exact Hrep|]. split; [exact short_pages_never_complete|].
  exact (get_offer_ids_never_complete short_server short_pages 3 Hrep
           short_pages_never_complete).
Defined.

(** X17: when a request of the fetch fails before any reply was complete,
    [get_offer_ids] raises the exception of that request, sends nothing
    after it and returns no id. *)
Theorem get_offer_ids_request_fails (srv : server) (pages : nat → page)
    (k : nat) (e : exn) (fuel : nat) :
  (∀ i, (i < k)%nat → product_list srv i (cursor pages i) = inr (pages i)) →
  (∀ i, (i < k)%nat → ¬ complete pages i) →
  product_list srv k (cursor pages k) = inl e →
  (k < fuel)%nat →
  get_offer_ids srv fuel [] = (Raised e, requests pages (S k)).
Proof.
  intros Hrep Hnot He Hfuel. unfold get_offer_ids, io_bind.
  assert (get_offer_ids_loop srv fuel "" [] [] = (Raised e, requests pages (S k))) as ->;
    [|done].
  apply (get_offer_ids_loop_fails srv pages k 0 fuel e);
    [intros; apply Hrep; lia|intros; apply Hnot; lia|done..].
Qed.

Lemma get_offer_ids_request_fails_witness :
  (∀ i, (i < 1)%nat →
     product_list failing_server i (cursor sample_pages i) = inr (sample_pages i)) ∧
  (∀ i, (i < 1)%nat → ¬ complete sample_pages i) ∧
  product_list failing_server 1 (cursor sample_pages 1) = inl HTTPError ∧
  (1 < 5)%nat ∧
  get_offer_ids failing_server 5 []
    = (Raised HTTPError, [Sent (ProductList ""); Sent (ProductList "cursor-1")]).
Proof.
  assert (∀ i, (i < 1)%nat →
     product_list failing_server i (cursor sample_pages i) = inr (sample_pages i))
    as Hrep.
  { intros i Hi. assert (i = 0%nat) as -> by lia. reflexivity. }
  assert (∀ i, (i < 1)%nat → ¬ complete sample_pages i) as Hnot.
  { intros i Hi. assert (i = 0%nat) as -> by lia. vm_compute. discriminate. }
  assert (1 < 5)%nat as Hfuel by lia.
  split; [exact Hrep|]. split; [exact Hnot|]. split; [reflexivity|].
  split; [exact Hfuel|].
  exact (get_offer_ids_request_fails failing_server sample_pages 1 HTTPError 5
           Hrep Hnot eq_refl Hfuel).
Defined.

Lemma get_offer_ids_done (srv : server) (fuel : nat) log0 ids log :
  get_offer_ids srv fuel log0 = (Done ids, log) →
  ∃ cs c p,
    log = log0 ++ map (λ c, Sent (ProductList c)) ("" :: cs) ∧
    last ("" :: cs) = Some c ∧
    product_list srv (length log0 + length cs) c = inr p ∧
    total p = Z.of_nat (length ids).
Proof.
  unfold get_offer_ids, io_bind.
  destruct (get_offer_ids_loop srv fuel "" [] log0) as [[pl| |] log1] eqn:E; [|done..].
  unfold io_ret. intros [= <- <-].
  destruct (get_offer_ids_loop_done _ _ _ _ _ _ _ E) as (cs & c & p & -> & Hl & Hp & Ht).
  exists cs, c, p. split_and!; [done..|].
  by rewrite foldl_snoc_map, app_nil_l, length_map.
Qed.

(** X18: whenever [get_offer_ids] returns, it has sent product-list
    requests only, the first with the empty cursor, and it returns as many
    ids as the reply to its last request reports as the total. *)
Theorem get_offer_ids_returns_total (srv : server) (fuel : nat) log0 ids log :
  get_offer_ids srv fuel log0 = (Done ids, log) →
  ∃ cs c p,
    log = log0 ++ map (λ c, Sent (ProductList c)) ("" :: cs) ∧
    last ("" :: cs) = Some c ∧
    product_list srv (length log0 + length cs) c = inr p ∧
    total p = Z.of_nat (length ids).
Proof. apply get_offer_ids_done. Qed.

(** ** The drivers *)

Lemma io_bind_done {A B} (m : IO A) (k : A → IO B) log a log1 :
  m log = (Done a, log1) → io_bind m k log = k a log1.
Proof. unfold io_bind. by intros ->. Qed.

Lemma io_bind_raised {A B} (m : IO A) (k : A → IO B) log e log1 :
  m log = (Raised e, log1) → io_bind m k log = (Raised e, log1).
Proof. unfold io_bind. by intros ->. Qed.

Lemma call_done {A} (m : M A) ids a ids' log :
  m ids = (inr a, ids') → call m ids log = (Done (a, ids'), log).
Proof. unfold call. by intros ->. Qed.


Section UploadLoop.

Context {A : Type}.
Variable mk : list A → request.
Variable answer : nat → list A → exn + unit.

(** The body of an upload loop: one request per part. *)
Definition upload_part (q : list A) : IO unit := send (mk q) (λ k, answer k q).

Lemma for_each_upload_all parts log :
  (∀ i q, parts !! i = Some q → answer (length log + i) q = inr tt) →
  for_each parts upload_part log = (Done tt, log ++ map (λ q, Sent (mk q)) parts).
Proof.
  revert log. induction parts as [|q parts IH]; intros log Hok.
  - simpl. unfold io_ret. by rewrite app_nil_r.
  - simpl. unfold io_bind, upload_part at 1, send.
    pose proof (Hok 0%nat q eq_refl) as H0. rewrite Nat.add_0_r in H0.
    rewrite H0, IH.
    + by rewrite <- app_assoc.
    + intros i q' Hq'. rewrite length_app. simpl.
      replace (length log + 1 + i)%nat with (length log + S i)%nat by lia.
      by apply Hok.
Qed.

Lemma get_offer_ids_returns_total_witness :
  get_offer_ids sample_server 2 []
    = (Done ["A"; "B"; "C"], [Sent (ProductList ""); Sent (ProductList "cursor-1")]) ∧
  ∃ cs c p,
    [Sent (ProductList ""); Sent (ProductList "cursor-1")]
      = [] ++ map (λ c, Sent (ProductList c)) ("" :: cs) ∧
    last ("" :: cs) = Some c ∧
    product_list sample_server (length (@nil event) + length cs) c = inr p ∧
    total p = Z.of_nat (length ["A"; "B"; "C"]).
Proof.
  split; [reflexivity|].
  apply (get_offer_ids_returns_total sample_server 2 []). reflexivity.
Defined.

Lemma for_each_upload_fails parts1 p parts2 e log :
  (∀ i q, parts1 !! i = Some q → answer (length log + i) q = inr tt) →
  answer (length log + length parts1) p = inl e →
  for_each (parts1 ++ p :: parts2) upload_part log =
  (Raised e, log ++ map (λ q, Sent (mk q)) (parts1 ++ [p])).
Proof.
  revert log. induction parts1 as [|q parts1 IH]; intros log Hok He.
  - simpl in *. unfold io_bind, upload_part at 1, send.
    rewrite Nat.add_0_r in He. by rewrite He.
  - simpl. unfold io_bind, upload_part at 1, send.
    pose proof (Hok 0%nat q eq_refl) as H0. rewrite Nat.add_0_r in H0.
    rewrite H0, IH.
    + by rewrite <- app_assoc.
    + intros i q' Hq'. rewrite length_app. simpl.
      replace (length log + 1 + i)%nat with (length log + S i)%nat by lia.
      by apply Hok.
    + rewrite length_app. simpl in *.
      by replace (length log + 1 + length parts1)%nat
        with (length log + S (length parts1))%nat by lia.
Qed.

Lemma for_each_upload_log parts log :
  ∃ j, (for_each parts upload_part log).2
       = log ++ map (λ q, Sent (mk q)) (take j parts).
Proof.
  revert log. induction parts as [|q parts IH]; intros log.
  - exists 0%nat. simpl. by rewrite app_nil_r.
  - simpl. unfold io_bind, upload_part at 1, send.
    destruct (answer (length log) q) as [e|[]].
    + exists 1%nat. simpl. by destruct parts.
    + destruct (IH (log ++ [Sent (mk q)])) as [j Hj].
      exists (S j). rewrite Hj. simpl. by rewrite <- app_assoc.
Qed.

End UploadLoop.

Lemma send_done {A} (r : request) (answer : nat → exn + A) log a :
  answer (length log) = inr a → send r answer log = (Done a, log ++ [Sent r]).
Proof. unfold send. by intros ->. Qed.


Lemma divide_returns {A} (lst : list A) (n : Z) :
  0 < n → ∃ parts, divide lst n = inr parts ∧ concat parts = lst.
Proof.
  intros Hn. rewrite divide_pos by done. eexists. split; [done|].
  eapply divide_concat; [exact Hn|by apply divide_pos].
Qed.

Lemma create_prices_after_create_stocks (int_of_str : string → option Z)
    (ws : list watch) (ids : list string) stocks ids' :
  NoDup ids →
  create_stocks int_of_str ws ids = (inr stocks, ids') →
  create_prices ws ids' = (inr [], ids').
Proof.
  intros Hnd Hst. rewrite create_stocks_eq in Hst.
  destruct (create_stocks_loop int_of_str ws [] ids) as [[e|es] ids1] eqn:E; [done|].
  injection Hst as _ <-. apply create_stocks_loop_state in E as ->.
  apply create_prices_loop_none. intros w Hw.
  apply remaining_NoDup_consumed; [done|]. apply list_elem_of_fmap. eauto.
Qed.

Section DriversMore.

Variable int_of_str : string → option Z.
Variable srv : server.

Lemma update_stocks_all parts log :
  (∀ i q, parts !! i = Some q → import_stocks srv (length log + i) q = inr tt) →
  for_each parts (update_stocks srv) log
  = (Done tt, log ++ map (λ q, Sent (ImportStocks q)) parts).
Proof. apply (for_each_upload_all ImportStocks (import_stocks srv)). Qed.

Lemma update_price_all parts log :
  (∀ i q, parts !! i = Some q → import_prices srv (length log + i) q = inr tt) →
  for_each parts (update_price srv) log
  = (Done tt, log ++ map (λ q, Sent (ImportPrices q)) parts).
Proof. apply (for_each_upload_all ImportPrices (import_prices srv)). Qed.

Lemma update_stocks_fails parts1 p parts2 e log :
  (∀ i q, parts1 !! i = Some q → import_stocks srv (length log + i) q = inr tt) →
  import_stocks srv (length log + length parts1) p = inl e →
  for_each (parts1 ++ p :: parts2) (update_stocks srv) log
  = (Raised e, log ++ map (λ q, Sent (ImportStocks q)) (parts1 ++ [p])).
Proof. apply (for_each_upload_fails ImportStocks (import_stocks srv)). Qed.

Lemma update_stocks_log parts log :
  ∃ j, (for_each parts (update_stocks srv) log).2
       = log ++ map (λ q, Sent (ImportStocks q)) (take j parts).
Proof. apply (for_each_upload_log ImportStocks (import_stocks srv)). Qed.

End DriversMore.

(** X19: when the marketplace refuses a part of the stock list,
    [upload_stocks] raises the exception of that request: the parts before
    it were sent, the parts after it are not, and nothing is returned. *)
Theorem upload_stocks_stops_at_failure (int_of_str : string → option Z) (srv : server)
    (fuel : nat) (ws : list watch) ids log1 stocks ids' parts1 p parts2 e :
  get_offer_ids srv fuel [] = (Done ids, log1) →
  create_stocks int_of_str ws ids = (inr stocks, ids') →
  divide stocks 100 = inr (parts1 ++ p :: parts2) →
  (∀ i q, parts1 !! i = Some q → import_stocks srv (length log1 + i) q = inr tt) →
  import_stocks srv (length log1 + length parts1) p = inl e →
  upload_stocks int_of_str srv fuel ws []
  = (Raised e, log1 ++ map (λ q, Sent (ImportStocks q)) (parts1 ++ [p])).
Proof.
  intros Hget Hst Hdiv Hok He. unfold upload_stocks.
  rewrite (io_bind_done _ _ _ _ _ Hget).
  rewrite (io_bind_done _ _ _ _ _ (call_done _ _ _ _ _ Hst)). simpl.
  rewrite Hdiv. unfold io_bind at 1. simpl.
  apply io_bind_raised. by apply update_stocks_fails.
Qed.

Lemma upload_stocks_stops_at_failure_witness :
  get_offer_ids big_server 1 [] = (Done (replicate 150 "Z"), [Sent (ProductList "")]) ∧
  create_stocks int_of_digits [] (replicate 150 "Z")
    = (inr (replicate 150 (StockEntry "Z" 0)), replicate 150 "Z") ∧
  divide (replicate 150 (StockEntry "Z" 0)) 100
    = inr ([replicate 100 (StockEntry "Z" 0)] ++ replicate 50 (StockEntry "Z" 0) :: []) ∧
  (∀ i q, [replicate 100 (StockEntry "Z" 0)] !! i = Some q →
     import_stocks big_server (length [Sent (ProductList "")] + i) q = inr tt) ∧
  import_stocks big_server
      (length [Sent (ProductList "")] + length [replicate 100 (StockEntry "Z" 0)])
      (replicate 50 (StockEntry "Z" 0)) = inl HTTPError ∧
  upload_stocks int_of_digits big_server 1 [] []
    = (Raised HTTPError,
       [Sent (ProductList "")]
         ++ map (λ q, Sent (ImportStocks q))
              ([replicate 100 (StockEntry "Z" 0)] ++ [replicate 50 (StockEntry "Z" 0)])).
Proof.
  assert (get_offer_ids big_server 1 []
          = (Done (replicate 150 "Z"), [Sent (ProductList "")])) as Hget
    by (vm_compute; reflexivity).
  assert (create_stocks int_of_digits [] (replicate 150 "Z")
          = (inr (replicate 150 (StockEntry "Z" 0)), replicate 150 "Z")) as Hst
    by (vm_compute; reflexivity).
  assert (divide (replicate 150 (StockEntry "Z" 0)) 100
          = inr ([replicate 100 (StockEntry "Z" 0)]
                 ++ replicate 50 (StockEntry "Z" 0) :: [])) as Hdiv
    by (vm_compute; reflexivity).
  assert (∀ i q, [replicate 100 (StockEntry "Z" 0)] !! i = Some q →
     import_stocks big_server (length [Sent (ProductList "")] + i) q = inr tt) as Hok.
  { intros [|i] q Hq; [reflexivity|discriminate]. }
  split; [exact Hget|]. split; [exact Hst|]. split; [exact Hdiv|].
  split; [exact Hok|]. split; [reflexivity|].
  exact (upload_stocks_stops_at_failure int_of_digits big_server 1 [] _ _ _ _ _ _ _ _
           Hget Hst Hdiv Hok eq_refl).
Defined.

(** X20: when the marketplace accepts every import of stocks,
    [upload_stocks] sends the stock list part by part, in order and
    complete, and returns the entries with a stock other than 0 together
    with the whole list. *)
Theorem upload_stocks_all_accepted (int_of_str : string → option Z) (srv : server)
    (fuel : nat) (ws : list watch) ids log1 stocks ids' :
  get_offer_ids srv fuel [] = (Done ids, log1) →
  create_stocks int_of_str ws ids = (inr stocks, ids') →
  (∀ k q, import_stocks srv k q = inr tt) →
  ∃ parts,
    divide stocks 100 = inr parts ∧
    concat parts = stocks ∧
    upload_stocks int_of_str srv fuel ws []
    = (Done (filter (λ e, stock e ≠ 0) stocks, stocks),
       log1 ++ map (λ q, Sent (ImportStocks q)) parts).
Proof.
  intros Hget Hst Hok.
  destruct (divide_returns stocks 100) as (parts & Hdiv & Hcat); [lia|].
  exists parts. split; [done|]. split; [done|]. unfold upload_stocks.
  rewrite (io_bind_done _ _ _ _ _ Hget).
  rewrite (io_bind_done _ _ _ _ _ (call_done _ _ _ _ _ Hst)). simpl.
  rewrite Hdiv. unfold io_bind at 1. simpl.
  rewrite (io_bind_done _ _ _ _ _ (update_stocks_all srv parts log1 (λ i q _, Hok _ q))).
  done.
Qed.

Lemma upload_stocks_all_accepted_witness :
  get_offer_ids sample_server 2 []
    = (Done ["A"; "B"; "C"], [Sent (ProductList ""); Sent (ProductList "cursor-1")]) ∧
  create_stocks int_of_digits [watch_A; watch_B] ["A"; "B"; "C"]
    = (inr [StockEntry "A" 100; StockEntry "B" 0; StockEntry "C" 0], ["C"]) ∧
  (∀ k q, import_stocks sample_server k q = inr tt) ∧
  upload_stocks int_of_digits sample_server 2 [watch_A; watch_B] []
    = (Done ([StockEntry "A" 100],
             [StockEntry "A" 100; StockEntry "B" 0; StockEntry "C" 0]),
       [Sent (ProductList ""); Sent (ProductList "cursor-1");
        Sent (ImportStocks [StockEntry "A" 100; StockEntry "B" 0; StockEntry "C" 0])]).
Proof.
  split; [reflexivity|]. split; [reflexivity|]. split; [reflexivity|].
  destruct (upload_stocks_all_accepted int_of_digits sample_server 2 [watch_A; watch_B]
              ["A"; "B"; "C"] _ _ ["C"] eq_refl eq_refl (λ _ _, eq_refl))
    as (parts & Hdiv & _ & Hrun).
  injection Hdiv as <-. exact Hrun.
Defined.

(** X21: when the marketplace accepts every import of prices,
    [upload_prices] sends the price list part by part, in order and
    complete, and returns the price list. *)
Theorem upload_prices_all_accepted (srv : server)
    (fuel : nat) (ws : list watch) ids log1 prices ids' :
  get_offer_ids srv fuel [] = (Done ids, log1) →
  create_prices ws ids = (inr prices, ids') →
  (∀ k q, import_prices srv k q = inr tt) →
  ∃ parts,
    divide prices 1000 = inr parts ∧
    concat parts = prices ∧
    upload_prices srv fuel ws []
    = (Done prices, log1 ++ map (λ q, Sent (ImportPrices q)) parts).
Proof.
  intros Hget Hpr Hok.
  destruct (divide_returns prices 1000) as (parts & Hdiv & Hcat); [lia|].
  exists parts. split; [done|]. split; [done|]. unfold upload_prices.
  rewrite (io_bind_done _ _ _ _ _ Hget).
  rewrite (io_bind_done _ _ _ _ _ (call_done _ _ _ _ _ Hpr)). simpl.
  rewrite Hdiv. unfold io_bind at 1. simpl.
  rewrite (io_bind_done _ _ _ _ _ (update_price_all srv parts log1 (λ i q _, Hok _ q))).
  done.
Qed.

Lemma upload_prices_all_accepted_witness :
  get_offer_ids sample_server 2 []
    = (Done ["A"; "B"; "C"], [Sent (ProductList ""); Sent (ProductList "cursor-1")]) ∧
  create_prices [watch_A; watch_B] ["A"; "B"; "C"]
    = (inr [PriceEntry "UNKNOWN" "RUB" "A" "0" "5990";
            PriceEntry "UNKNOWN" "RUB" "B" "0" "789"], ["A"; "B"; "C"]) ∧
  (∀ k q, import_prices sample_server k q = inr tt) ∧
  upload_prices sample_server 2 [watch_A; watch_B] []
    = (Done [PriceEntry "UNKNOWN" "RUB" "A" "0" "5990";
             PriceEntry "UNKNOWN" "RUB" "B" "0" "789"],
       [Sent (ProductList ""); Sent (ProductList "cursor-1");
        Sent (ImportPrices [PriceEntry "UNKNOWN" "RUB" "A" "0" "5990";
                            PriceEntry "UNKNOWN" "RUB" "B" "0" "789"])]).
Proof.
  split; [reflexivity|]. split; [reflexivity|]. split; [reflexivity|].
  destruct (upload_prices_all_accepted sample_server 2 [watch_A; watch_B]
              ["A"; "B"; "C"] _ _ ["A"; "B"; "C"] eq_refl eq_refl (λ _ _, eq_refl))
    as (parts & Hdiv & _ & Hrun).
  injection Hdiv as <-. exact Hrun.
Defined.

(** X22: when the fetch, the download and both reconcilers go through and
    the marketplace accepts every import, [main] sends, after the requests
    of the fetch and the download, the stock list in parts of at most 100
    and then the price list in parts of at most 900, each in order and
    complete, and ends without a message. *)
Theorem main_all_accepted (int_of_str : string → option Z) (srv : server)
    (fuel : nat) ids log1 ws stocks ids' prices ids'' :
  get_offer_ids srv fuel [] = (Done ids, log1) →
  ostatki srv (length log1) = inr ws →
  create_stocks int_of_str ws ids = (inr stocks, ids') →
  create_prices ws ids' = (inr prices, ids'') →
  (∀ k q, import_stocks srv k q = inr tt) →
  (∀ k q, import_prices srv k q = inr tt) →
  ∃ sparts pparts,
    divide stocks 100 = inr sparts ∧ concat sparts = stocks ∧
    divide prices 900 = inr pparts ∧ concat pparts = prices ∧
    main int_of_str srv fuel []
    = (Done tt,
       log1 ++ [Sent Ostatki]
         ++ map (λ q, Sent (ImportStocks q)) sparts
         ++ map (λ q, Sent (ImportPrices q)) pparts).
Proof.
  intros Hget Hdl Hst Hpr Hoks Hokp.
  destruct (divide_returns stocks 100) as (sparts & Hsd & Hsc); [lia|].
  destruct (divide_returns prices 900) as (pparts & Hpd & Hpc); [lia|].
  exists sparts, pparts. split_and!; [done..|].
  unfold main, try_print.
  rewrite (io_bind_done _ _ _ _ _ Hget).
  rewrite (io_bind_done _ _ _ _ _ (send_done Ostatki (ostatki srv) _ _ Hdl)).
  rewrite (io_bind_done _ _ _ _ _ (call_done _ _ _ _ _ Hst)). simpl.
  rewrite Hsd. unfold io_bind at 1. simpl.
  rewrite (io_bind_done _ _ _ _ _ (update_stocks_all srv sparts _ (λ i q _, Hoks _ q))).
  rewrite (io_bind_done _ _ _ _ _ (call_done _ _ _ _ _ Hpr)). simpl.
  rewrite Hpd. unfold io_bind at 1. simpl.
  rewrite (io_bind_done _ _ _ _ _ (update_price_all srv pparts _ (λ i q _, Hokp _ q))).
  unfold io_ret. by rewrite <- !app_assoc.
Qed.

Lemma main_all_accepted_witness :
  get_offer_ids repeating_server 1 [] = (Done ["A"; "A"; "B"], [Sent (ProductList "")]) ∧
  ostatki repeating_server (length [Sent (ProductList "")]) = inr [watch_A; watch_B] ∧
  create_stocks int_of_digits [watch_A; watch_B] ["A"; "A"; "B"]
    = (inr [StockEntry "A" 100; StockEntry "B" 0; StockEntry "A" 0], ["A"]) ∧
  create_prices [watch_A; watch_B] ["A"]
    = (inr [PriceEntry "UNKNOWN" "RUB" "A" "0" "5990"], ["A"]) ∧
  (∀ k q, import_stocks repeating_server k q = inr tt) ∧
  (∀ k q, import_prices repeating_server k q = inr tt) ∧
  main int_of_digits repeating_server 1 []
    = (Done tt,
       [Sent (ProductList ""); Sent Ostatki;
        Sent (ImportStocks [StockEntry "A" 100; StockEntry "B" 0; StockEntry "A" 0]);
        Sent (ImportPrices [PriceEntry "UNKNOWN" "RUB" "A" "0" "5990"])]).
Proof.
  split; [reflexivity|]. split; [reflexivity|]. split; [reflexivity|].
  split; [reflexivity|]. split; [reflexivity|]. split; [reflexivity|].
  destruct (main_all_accepted int_of_digits repeating_server 1 ["A"; "A"; "B"] _
              [watch_A; watch_B] _ ["A"] _ ["A"]
              eq_refl eq_refl eq_refl eq_refl (λ _ _, eq_refl) (λ _ _, eq_refl))
    as (sparts & pparts & Hs & _ & Hp & _ & Hrun).
  injection Hs as <-. injection Hp as <-. exact Hrun.
Defined.



(** X24: when the fetch returns a list in which no id occurs twice, [main]
    sends no import of prices, whatever the remnants and whatever the
    marketplace answers: [create_stocks] has taken every matched id out of
    the list that [create_prices] then reads. *)
Theorem main_sends_no_prices (int_of_str : string → option Z) (srv : server)
    (fuel : nat) ids log1 :
  get_offer_ids srv fuel [] = (Done ids, log1) →
  NoDup ids →
  ∀ prices, Sent (ImportPrices prices) ∉ (main int_of_str srv fuel []).2.
Proof.
  intros Hget Hnd prices.
  destruct (get_offer_ids_done _ _ _ _ _ Hget) as (cs & _ & _ & Hlog1 & _).
  assert (Sent (ImportPrices prices) ∉ log1) as Hn1.
  { rewrite Hlog1, app_nil_l. intros Hin.
    apply list_elem_of_fmap in Hin as (c & Hc & _). discriminate. }
  assert (∀ parts j, Sent (ImportPrices prices)
            ∉ map (λ q, Sent (ImportStocks q)) (take j parts)) as Hn2.
  { intros parts j Hin. apply list_elem_of_fmap in Hin as (c & Hc & _). discriminate. }
  unfold main, try_print. rewrite (io_bind_done _ _ _ _ _ Hget).
  unfold io_bind at 1, download_stock, send.
  destruct (ostatki srv (length log1)) as [e|ws].
  { simpl. rewrite !elem_of_app, !elem_of_cons, !elem_of_nil.
    intros [[?|[?|?]]|[?|?]]; done. }
  unfold io_bind at 1, call.
  destruct (create_stocks int_of_str ws ids) as [[e|stocks] ids'] eqn:Hst.
  { simpl. rewrite !elem_of_app, !elem_of_cons, !elem_of_nil.
    intros [[?|[?|?]]|[?|?]]; done. }
  simpl. destruct (divide_returns stocks 100) as (parts & -> & _); [lia|].
  unfold io_bind at 1. simpl. unfold io_bind at 1.
  destruct (update_stocks_log srv parts (log1 ++ [Sent Ostatki])) as [j Hj].
  destruct (for_each parts (update_stocks srv) (log1 ++ [Sent Ostatki]))
    as [[[]|e|] log3]; simpl in Hj; subst log3.
  - rewrite (create_prices_after_create_stocks _ _ _ _ _ Hnd Hst). simpl.
    rewrite !elem_of_app, !elem_of_cons, !elem_of_nil.
    intros [[?|[?|?]]|Hin]; try done. by apply (Hn2 parts j).
  - simpl. rewrite !elem_of_app, !elem_of_cons, !elem_of_nil.
    intros [[[?|[?|?]]|Hin]|[?|?]]; try done. by apply (Hn2 parts j).
  - simpl. rewrite !elem_of_app, !elem_of_cons, !elem_of_nil.
    intros [[?|[?|?]]|Hin]; try done. by apply (Hn2 parts j).
Qed.

Lemma main_sends_no_prices_witness :
  get_offer_ids sample_server 2 []
    = (Done ["A"; "B"; "C"], [Sent (ProductList ""); Sent (ProductList "cursor-1")]) ∧
  NoDup ["A"; "B"; "C"] ∧
  main int_of_digits sample_server 2 []
    = (Done tt,
       [Sent (ProductList ""); Sent (ProductList "cursor-1"); Sent Ostatki;
        Sent (ImportStocks [StockEntry "A" 100; StockEntry "B" 0; StockEntry "C" 0])]) ∧
  ∀ prices, Sent (ImportPrices prices) ∉ (main int_of_digits sample_server 2 []).2.
Proof.
  assert (NoDup ["A"; "B"; "C"]) as Hnd
    by (apply (bool_decide_unpack _); vm_compute; exact I).
  split; [reflexivity|]. split; [exact Hnd|]. split; [reflexivity|].
  exact (main_sends_no_prices int_of_digits sample_server 2 ["A"; "B"; "C"] _ eq_refl Hnd).
Defined.
